(** * HOL hardware verification simulator: the circuit-logic core of [app.py]

    A shallow embedding of the script's core: the aggregation of the form's
    entries into nested dictionaries, the collection of the variable universe,
    the textual binding of each component formula ([str.replace] followed by
    [eval]), the composition with [And], the unit-delay simulation table and the
    proof-tree builder.

    Python values are modelled as the script uses them: a [str] as the
    [string] of its UTF-8 bytes, an insertion-ordered [dict] as an association
    list with unique keys, a [list] updated by index with the out-of-range case
    written out, and raised exceptions as the [Raise] outcome.  What [sympy],
    [graphviz] and [streamlit] do inside their own code is not in the script:
    the calls the script makes into them are the fields of a [library], a
    parameter of every definition that reaches such a call, and the text sympy
    prints for an expression is a parameter as well.  A [logic_expr] is a sympy
    object as the script inspects it ([isinstance] and [.args]). *)

From Stdlib Require Import String Ascii List Arith Lia Bool Permutation.
From stdpp Require Import base list strings pretty.

Local Open Scope string_scope.
Local Open Scope list_scope.

Set Warnings "-register-all".

(** ** Outcomes of fallible Python code *)

(** The exceptions the modelled code can raise; [LibraryError] stands for an
    exception that comes out of a library call, under the name of its class. *)
Inductive exn : Type :=
  | SyntaxError
  | NameError (name : string)
  | KeyError (key : string)
  | IndexError
  | LibraryError (name : string).

(** [Ok v]: the code returns [v].  [Raise e]: it raises [e].  [Unmodelled]: the
    input leaves the fragment of Python this development describes, or a
    library call gives back something that is not a [logic_expr]; nothing is
    asserted about such a run. *)
Inductive outcome (A : Type) : Type :=
  | Ok (v : A)
  | Raise (e : exn)
  | Unmodelled.

Arguments Ok {A} v.
Arguments Raise {A} e.
Arguments Unmodelled {A}.

Definition obind {A B : Type} (m : outcome A) (f : A -> outcome B) : outcome B :=
  match m with
  | Ok v => f v
  | Raise e => Raise e
  | Unmodelled => Unmodelled
  end.

Notation "'let*' x ':=' m 'in' k" := (obind m (fun x => k))
  (at level 10, x pattern, m at level 100, k at level 200).

Definition is_ok {A : Type} (m : outcome A) : bool :=
  match m with Ok _ => true | _ => false end.

(** ** Python dictionaries

    A [dict] keeps its keys in insertion order; assigning to a key that is
    already present replaces the value and leaves the key where it is. *)
Module PyDict.

Section Dict.
Context {V : Type}.

Definition t : Type := list (string * V).

Fixpoint set (d : t) (k : string) (v : V) : t :=
  match d with
  | [] => [(k, v)]
  | (k', v') :: d' =>
      if String.eqb k' k then (k', v) :: d' else (k', v') :: set d' k v
  end.

Fixpoint get (d : t) (k : string) : option V :=
  match d with
  | [] => None
  | (k', v') :: d' => if String.eqb k' k then Some v' else get d' k
  end.

Definition keys (d : t) : list string := map fst d.
Definition values (d : t) : list V := map snd d.

(** [d = {}] followed by [d[k] = v] for each entry in turn. *)
Definition of_entries (entries : list (string * V)) : t :=
  fold_left (fun d kv => set d (fst kv) (snd kv)) entries [].

End Dict.

Arguments t : clear implicits.

End PyDict.

(** ** The circuit model (lines 17-29) *)

(** One component as the form collects it: [inputs] is the comma-split text of
    the inputs field, [expr] the raw text [OUTPUT = FORMULA], [delay] the
    number chosen in the delay field (an integer from 0 on). *)
Record component : Type := Component {
  inputs : list string;
  output : string;
  expr : string;
  delay : nat
}.

(** What the form yields before aggregation: per sub-circuit its name and the
    named components entered for it, in the order of the widgets. *)
Definition form : Type := list (string * list (string * component)).

(** [components_dict[comp_name] = {...}] for each component of a sub-circuit. *)
Definition components_dict (entries : list (string * component))
  : PyDict.t component :=
  PyDict.of_entries entries.

(** [subcircuits[sc_name] = components_dict] for each sub-circuit. *)
Definition subcircuits (f : form) : PyDict.t (PyDict.t component) :=
  PyDict.of_entries (map (fun sc => (fst sc, components_dict (snd sc))) f).

(** The components in the order the nested loops
    [for comps in subcircuits.values(): for comp in comps.values()] meet them. *)
Definition all_components (scs : PyDict.t (PyDict.t component)) : list component :=
  flat_map PyDict.values (PyDict.values scs).

(** ** Python string operations used by the script *)

(** [s.split(sep)] for a one-character separator: the pieces between the
    occurrences of [sep], always at least one piece. *)
Fixpoint split (sep : ascii) (s : string) : list string :=
  match s with
  | EmptyString => [EmptyString]
  | String c s' =>
      if Ascii.eqb c sep then EmptyString :: split sep s'
      else match split sep s' with
           | [] => [String c EmptyString]
           | w :: ws => String c w :: ws
           end
  end.

(** The text whose UTF-8 bytes are [l]. *)
Definition bytes (l : list nat) : string :=
  fold_right (fun n s => String (ascii_of_nat n) s) EmptyString l.

(** The characters [str.strip()] removes, each as its UTF-8 bytes: the ASCII
    blanks U+0009 to U+000D, U+001C to U+0020, then U+0085, U+00A0, U+1680,
    U+2000 to U+200A, U+2028, U+2029, U+202F, U+205F and U+3000. *)
Definition whitespace : list string :=
  map bytes
    [[9]; [10]; [11]; [12]; [13]; [28]; [29]; [30]; [31]; [32];
     [194; 133]; [194; 160]; [225; 154; 128];
     [226; 128; 128]; [226; 128; 129]; [226; 128; 130]; [226; 128; 131];
     [226; 128; 132]; [226; 128; 133]; [226; 128; 134]; [226; 128; 135];
     [226; 128; 136]; [226; 128; 137]; [226; 128; 138];
     [226; 128; 168]; [226; 128; 169]; [226; 128; 175]; [226; 129; 159];
     [227; 128; 128]].

(** What follows [p] when [s] starts with [p]. *)
Fixpoint after_prefix (p s : string) : option string :=
  match p with
  | EmptyString => Some s
  | String a p' =>
      match s with
      | String b s' => if Ascii.eqb a b then after_prefix p' s' else None
      | EmptyString => None
      end
  end.

Fixpoint after_any (ps : list string) (s : string) : option string :=
  match ps with
  | [] => None
  | p :: ps' =>
      match after_prefix p s with
      | Some r => Some r
      | None => after_any ps' s
      end
  end.

(** Drop characters of [ps] from the front for as long as there is one;
    [fuel] bounds the number of characters dropped. *)
Fixpoint drop_leading (ps : list string) (fuel : nat) (s : string) : string :=
  match fuel with
  | O => s
  | S n =>
      match after_any ps s with
      | Some r => drop_leading ps n r
      | None => s
      end
  end.

Definition reverse (s : string) : string :=
  string_of_list_ascii (rev (list_ascii_of_string s)).

Definition lstrip (s : string) : string :=
  drop_leading whitespace (String.length s) s.

Definition rstrip (s : string) : string :=
  reverse (drop_leading (map reverse whitespace) (String.length s) (reverse s)).

Definition strip (s : string) : string := rstrip (lstrip s).

(** [s.replace(old, new)] for a non-empty [old]: every occurrence of [old],
    found from the left and not overlapping an earlier one, becomes [new].
    [skip] counts the characters of the occurrence just replaced that are still
    to be dropped. *)
Fixpoint replace_from (old new : string) (skip : nat) (s : string) : string :=
  match s with
  | EmptyString => EmptyString
  | String c s' =>
      match skip with
      | S n => replace_from old new n s'
      | O =>
          if String.prefix old s
          then new +:+ replace_from old new (String.length old - 1) s'
          else String c (replace_from old new 0 s')
      end
  end.

(** A byte that continues a UTF-8 character begun earlier. *)
Definition is_continuation (c : ascii) : bool :=
  let n := nat_of_ascii c in Nat.leb 128 n && Nat.ltb n 192.

(** [s.replace("", new)]: [new] before every character and at the end. *)
Fixpoint replace_empty (new s : string) : string :=
  match s with
  | EmptyString => new
  | String c s' =>
      if is_continuation c then String c (replace_empty new s')
      else new +:+ String c (replace_empty new s')
  end.

Definition replace (old new s : string) : string :=
  if String.eqb old EmptyString then replace_empty new s
  else replace_from old new 0 s.

(** [sep.join(parts)]. *)
Fixpoint join (sep : string) (parts : list string) : string :=
  match parts with
  | [] => EmptyString
  | [p] => p
  | p :: ps => p +:+ sep +:+ join sep ps
  end.

(** ** Logic expressions

    A sympy object as the script inspects it: its class ([isinstance]) and
    its arguments ([.args]).  Which object a call of [And], [Or] or [Not]
    returns is sympy's matter (it flattens, sorts and simplifies on
    construction) and is a field of [library].  The constants [true] and
    [false] are not among [logic_expr]; a call that returns one of them is
    [Unmodelled].  The same terms are read as formulas by [show]. *)
Inductive logic_expr : Type :=
  | Symbol (name : string)
  | And (args : list logic_expr)
  | Or (args : list logic_expr)
  | Not (arg : logic_expr).


(** ** The variable universe (lines 58-65) *)

(** [s.add(x)]; the list keeps the elements in the order they were first added. *)
Definition set_add (s : list string) (x : string) : list string :=
  if existsb (String.eqb x) s then s else s ++ [x].

(** [all_vars.update(comp['inputs'])] then [all_vars.add(comp['output'])]. *)
Definition add_component_vars (s : list string) (comp : component) : list string :=
  set_add (fold_left set_add comp.(inputs) s) comp.(output).

(** [all_vars]: every input and the output of every component. *)
Definition all_vars (scs : PyDict.t (PyDict.t component)) : list string :=
  fold_left (fun s comps => fold_left add_component_vars (PyDict.values comps) s)
            (PyDict.values scs) [].

Definition is_digit (c : ascii) : bool :=
  let n := nat_of_ascii c in Nat.leb 48 n && Nat.leb n 57.

Definition is_upper (c : ascii) : bool :=
  let n := nat_of_ascii c in Nat.leb 65 n && Nat.leb n 90.

Definition is_lower (c : ascii) : bool :=
  let n := nat_of_ascii c in Nat.leb 97 n && Nat.leb n 122.

Definition is_ident_start (c : ascii) : bool :=
  is_upper c || is_lower c || Ascii.eqb c "_".

Definition is_ident_char (c : ascii) : bool :=
  is_ident_start c || is_digit c.

Fixpoint string_forall (p : ascii -> bool) (s : string) : bool :=
  match s with
  | EmptyString => true
  | String c s' => p c && string_forall p s'
  end.

Fixpoint string_exists (p : ascii -> bool) (s : string) : bool :=
  match s with
  | EmptyString => false
  | String c s' => p c || string_exists p s'
  end.

(** Names for which [symbols(name)] is the single symbol of that name and
    [str] of it gives the name back: letters, digits and underscores.  (Commas,
    blanks, colons and parentheses have a meaning of their own to [symbols].) *)
Definition plain_name (s : string) : bool :=
  negb (String.eqb s EmptyString) && string_forall is_ident_char s.

(** The keys of [var_map], in the order of [syms]: [vars] is [list(all_vars)],
    the elements of the set in the order Python happens to enumerate them.
    When some name is not plain, the call [symbols] may raise, and what it
    returns otherwise is not modelled. *)
Definition var_map_keys (symbols : list string -> outcome unit)
  (vars : list string) : outcome (list string) :=
  if forallb plain_name vars then Ok vars
  else let* _ := symbols vars in Unmodelled.

(** ** Evaluating formula text (lines 72-75)

    [eval] on the fragment of Python expressions made of names, one-quoted
    string literals, calls and subscripts.  Text outside the fragment is
    [Unmodelled]. *)

Inductive token : Type :=
  | TName (n : string)
  | TStr (s : string)
  | TLPar | TRPar | TLBrk | TRBrk | TComma.

Inductive lex_mode : Type :=
  | Idle
  | InName (acc : string)
  | InStr (acc : string).

Definition keywords : list string :=
  ["False"; "None"; "True"; "and"; "as"; "assert"; "async"; "await"; "break";
   "class"; "continue"; "def"; "del"; "elif"; "else"; "except"; "finally";
   "for"; "from"; "global"; "if"; "import"; "in"; "is"; "lambda"; "nonlocal";
   "not"; "or"; "pass"; "raise"; "return"; "try"; "while"; "with"; "yield"].

Definition close_name (acc : string) : option token :=
  if existsb (String.eqb acc) keywords then None else Some (TName acc).

Definition snoc (s : string) (c : ascii) : string := s +:+ String c EmptyString.

(** A character met between tokens: the tokens it completes and the mode it
    leaves the lexer in. *)
Definition lex_start (c : ascii) : option (list token * lex_mode) :=
  if is_ident_start c then Some ([], InName (String c EmptyString))
  else if Ascii.eqb c "'" then Some ([], InStr EmptyString)
  else if Ascii.eqb c " " then Some ([], Idle)
  else if Ascii.eqb c "(" then Some ([TLPar], Idle)
  else if Ascii.eqb c ")" then Some ([TRPar], Idle)
  else if Ascii.eqb c "[" then Some ([TLBrk], Idle)
  else if Ascii.eqb c "]" then Some ([TRBrk], Idle)
  else if Ascii.eqb c "," then Some ([TComma], Idle)
  else None.

(** Characters of a string literal that stand for themselves. *)
Definition literal_char (c : ascii) : bool :=
  let n := nat_of_ascii c in
  Nat.leb 32 n && Nat.leb n 126 && negb (Ascii.eqb c "'") && negb (Ascii.eqb c "\").

Fixpoint lex (m : lex_mode) (s : string) : option (list token) :=
  match s with
  | EmptyString =>
      match m with
      | Idle => Some []
      | InName acc => option_map (fun t => [t]) (close_name acc)
      | InStr _ => None
      end
  | String c s' =>
      match m with
      | Idle =>
          match lex_start c with
          | Some (ts, m') => option_map (app ts) (lex m' s')
          | None => None
          end
      | InName acc =>
          if is_ident_char c then lex (InName (snoc acc c)) s'
          else if Ascii.eqb c "'" then None
          else match close_name acc, lex_start c with
               | Some t, Some (ts, m') => option_map (fun r => t :: ts ++ r) (lex m' s')
               | _, _ => None
               end
      | InStr acc =>
          if Ascii.eqb c "'" then option_map (cons (TStr acc)) (lex Idle s')
          else if literal_char c then lex (InStr (snoc acc c)) s'
          else None
      end
  end.

Inductive ast : Type :=
  | AName (n : string)
  | AStr (s : string)
  | ACall (f : ast) (args : list ast)
  | ASub (v : ast) (i : ast).

(** An open bracket waiting for its closing one: a call with the arguments read
    so far, or a subscript. *)
Inductive frame : Type :=
  | FCall (f : ast) (args : list ast)
  | FSub (v : ast).

(** CPython refuses an expression whose brackets nest deeper than its parser
    allows (some ninety levels in the older parser, two hundred in the newer
    one); nesting beyond [max_nesting] open brackets is left unmodelled. *)
Definition max_nesting : nat := 32.

Definition open_bracket (fr : frame) (stk : list frame)
  : outcome (list frame * option ast) :=
  if Nat.ltb (length stk) max_nesting then Ok (fr :: stk, None) else Unmodelled.

(** The parser reads the tokens from the left, holding the open brackets and
    the expression just completed ([pending]), which a following bracket turns
    into a call or a subscript.  It answers [SyntaxError] where no Python
    expression continues that way and [Unmodelled] where Python has a form
    (tuple, parenthesis, list display, adjacent literals) that [ast] lacks. *)
Definition parse_step (st : list frame * option ast) (t : token)
  : outcome (list frame * option ast) :=
  let '(stk, pending) := st in
  match t, pending with
  | TName n, None => Ok (stk, Some (AName n))
  | TName _, Some _ => Raise SyntaxError
  | TStr s, None => Ok (stk, Some (AStr s))
  | TStr _, Some (AStr _) => Unmodelled
  | TStr _, Some _ => Raise SyntaxError
  | TLPar, Some f => open_bracket (FCall f []) stk
  | TLPar, None => Unmodelled
  | TLBrk, Some v => open_bracket (FSub v) stk
  | TLBrk, None => Unmodelled
  | TComma, Some a =>
      match stk with
      | FCall f args :: stk' => Ok (FCall f (args ++ [a]) :: stk', None)
      | _ => Unmodelled
      end
  | TComma, None => Raise SyntaxError
  | TRPar, _ =>
      match stk with
      | FCall f args :: stk' =>
          Ok (stk', Some (ACall f (match pending with
                                   | Some a => args ++ [a]
                                   | None => args
                                   end)))
      | _ => Raise SyntaxError
      end
  | TRBrk, Some i =>
      match stk with
      | FSub v :: stk' => Ok (stk', Some (ASub v i))
      | _ => Raise SyntaxError
      end
  | TRBrk, None => Raise SyntaxError
  end.

Fixpoint parse_from (st : list frame * option ast) (ts : list token) : outcome ast :=
  match ts with
  | [] =>
      match st with
      | ([], Some a) => Ok a
      | _ => Raise SyntaxError
      end
  | t :: ts' => let* st' := parse_step st t in parse_from st' ts'
  end.

Definition parse (ts : list token) : outcome ast := parse_from ([], None) ts.

Inductive sympy_class : Type := ClsAnd | ClsOr | ClsNot.

(** The Python values an expression of the fragment can denote. *)
Inductive pyval : Type :=
  | VExpr (e : logic_expr)
  | VClass (c : sympy_class)
  | VVarMap
  | VStr (s : string).

(** Names the script has bound when line 75 runs, besides [And], [Or], [Not]
    and [var_map], and the names it binds further down (left bound if an
    earlier run shares the name space): their values are Python objects
    outside [pyval]. *)
Definition script_names : list string :=
  ["st"; "symbols"; "simplify_logic"; "satisfiable"; "graphviz"; "pd";
   "components"; "num_subcircuits"; "subcircuits"; "i"; "sc_name";
   "num_components"; "components_dict"; "j"; "comp_name"; "input_vars";
   "output_var"; "expr"; "delay"; "comps"; "cname"; "comp"; "top_level_exprs";
   "full_circuit_expr"; "all_vars"; "syms"; "evaluated_exprs"; "temporal_info";
   "expr_str"; "k"; "v";
   "simplified"; "sat"; "t"; "e"; "dot"; "inp"].

(** The names of Python's builtins (3.8 to 3.13) that have no underscore. *)
Definition builtin_names : list string :=
  ["ArithmeticError"; "AssertionError"; "AttributeError"; "BaseException";
   "BaseExceptionGroup"; "BlockingIOError"; "BrokenPipeError"; "BufferError";
   "BytesWarning"; "ChildProcessError"; "ConnectionAbortedError";
   "ConnectionError"; "ConnectionRefusedError"; "ConnectionResetError";
   "DeprecationWarning"; "EOFError"; "Ellipsis"; "EncodingWarning";
   "EnvironmentError"; "Exception"; "ExceptionGroup"; "False";
   "FileExistsError"; "FileNotFoundError"; "FloatingPointError";
   "FutureWarning"; "GeneratorExit"; "IOError"; "ImportError"; "ImportWarning";
   "IndentationError"; "IndexError"; "InterruptedError"; "IsADirectoryError";
   "KeyError"; "KeyboardInterrupt"; "LookupError"; "MemoryError";
   "ModuleNotFoundError"; "NameError"; "None"; "NotADirectoryError";
   "NotImplemented"; "NotImplementedError"; "OSError"; "OverflowError";
   "PendingDeprecationWarning"; "PermissionError"; "ProcessLookupError";
   "PythonFinalizationError"; "RecursionError"; "ReferenceError";
   "ResourceWarning"; "RuntimeError"; "RuntimeWarning"; "StopAsyncIteration";
   "StopIteration"; "SyntaxError"; "SyntaxWarning"; "SystemError";
   "SystemExit"; "TabError"; "TimeoutError"; "True"; "TypeError";
   "UnboundLocalError"; "UnicodeDecodeError"; "UnicodeEncodeError";
   "UnicodeError"; "UnicodeTranslateError"; "UnicodeWarning"; "UserWarning";
   "ValueError"; "Warning"; "WindowsError"; "ZeroDivisionError";
   "abs"; "aiter"; "all"; "anext"; "any"; "ascii"; "bin"; "bool";
   "breakpoint"; "bytearray"; "bytes"; "callable"; "chr"; "classmethod";
   "compile"; "complex"; "copyright"; "credits"; "delattr"; "dict"; "dir";
   "divmod"; "enumerate"; "eval"; "exec"; "exit"; "filter"; "float"; "format";
   "frozenset"; "getattr"; "globals"; "hasattr"; "hash"; "help"; "hex"; "id";
   "input"; "int"; "isinstance"; "issubclass"; "iter"; "len"; "license";
   "list"; "locals"; "map"; "max"; "memoryview"; "min"; "next"; "object";
   "oct"; "open"; "ord"; "pow"; "print"; "property"; "quit"; "range"; "repr";
   "reversed"; "round"; "set"; "setattr"; "slice"; "sorted"; "staticmethod";
   "str"; "sum"; "super"; "tuple"; "type"; "vars"; "zip"].

(** A name Python itself may have bound: a builtin, or a name with an
    underscore (the names the interpreter and the runner put in a module have
    one). *)
Definition may_be_builtin (n : string) : bool :=
  existsb (String.eqb n) builtin_names || string_exists (Ascii.eqb "_") n.

Definition lookup_name (n : string) : outcome pyval :=
  if String.eqb n "And" then Ok (VClass ClsAnd)
  else if String.eqb n "Or" then Ok (VClass ClsOr)
  else if String.eqb n "Not" then Ok (VClass ClsNot)
  else if String.eqb n "var_map" then Ok VVarMap
  else if existsb (String.eqb n) script_names then Unmodelled
  else if may_be_builtin n then Unmodelled
  else Raise (NameError n).

(** [v[i]]: only [var_map['name']] is modelled; a missing key raises. *)
Definition getitem (keys : list string) (v i : pyval) : outcome pyval :=
  match v, i with
  | VVarMap, VStr k =>
      if existsb (String.eqb k) keys then Ok (VExpr (Symbol k)) else Raise (KeyError k)
  | _, _ => Unmodelled
  end.

Fixpoint exprs_of (vs : list pyval) : option (list logic_expr) :=
  match vs with
  | [] => Some []
  | VExpr e :: vs' => option_map (cons e) (exprs_of vs')
  | _ :: _ => None
  end.

(** A [graphviz.Digraph] as the calls [dot.node] and [dot.edge] fill it. *)
Record node : Type := Node {
  node_name : string;
  label : string;
  URL : string;
  tooltip : string
}.

Record digraph : Type := Digraph {
  nodes : list node;
  edges : list (string * string)
}.

(** The calls the body of the [try] makes into code that is not the
    script's, each with what it is given and what comes back:
    - [sympy_And], [sympy_Or], [sympy_Not]: the three classes called on
      objects, returning the object sympy constructs;
    - [sympy_symbols]: [symbols(list(all_vars))] when some name is not a plain
      one (whether the call returns; what it returns then is not modelled);
    - [inspect]: lines 80-88, [simplify_logic] and [satisfiable] on the circuit
      logic and the display of their results;
    - [show_table]: line 97, [pd.DataFrame] and [st.dataframe] on the table;
    - [render]: lines 136-143, [pipe] on the proof graph and
      [components.html] on its result.
    The calls of [st.header], [st.subheader] and [st.markdown] on constant
    texts are taken to return. *)
Record library : Type := Library {
  sympy_And : list logic_expr -> outcome logic_expr;
  sympy_Or : list logic_expr -> outcome logic_expr;
  sympy_Not : list logic_expr -> outcome logic_expr;
  sympy_symbols : list string -> outcome unit;
  inspect : logic_expr -> outcome unit;
  show_table : PyDict.t (list nat) -> outcome unit;
  render : digraph -> outcome unit
}.

(** Calling [f] on [args]: the three sympy classes called on expressions. *)
Definition call (lib : library) (f : pyval) (args : list pyval) : outcome pyval :=
  match f, exprs_of args with
  | VClass ClsAnd, Some es => let* e := sympy_And lib es in Ok (VExpr e)
  | VClass ClsOr, Some es => let* e := sympy_Or lib es in Ok (VExpr e)
  | VClass ClsNot, Some es => let* e := sympy_Not lib es in Ok (VExpr e)
  | _, _ => Unmodelled
  end.

(** Python evaluates the callee, then the arguments from the left, then calls;
    the first exception ends the evaluation. *)
Fixpoint eval_ast (lib : library) (keys : list string) (a : ast) : outcome pyval :=
  match a with
  | AName n => lookup_name n
  | AStr s => Ok (VStr s)
  | ASub v i =>
      let* vv := eval_ast lib keys v in
      let* vi := eval_ast lib keys i in
      getitem keys vv vi
  | ACall f args =>
      let* vf := eval_ast lib keys f in
      let* vargs :=
        (fix eval_args (l : list ast) : outcome (list pyval) :=
           match l with
           | [] => Ok []
           | x :: l' =>
               let* vx := eval_ast lib keys x in
               let* vl := eval_args l' in
               Ok (vx :: vl)
           end) args in
      call lib vf vargs
  end.

(** [eval(s)] with [var_map] holding the keys [keys]. *)
Definition py_eval (lib : library) (keys : list string) (s : string) : outcome pyval :=
  match lex Idle s with
  | None => Unmodelled
  | Some ts => let* a := parse ts in eval_ast lib keys a
  end.

(** The text that replaces a variable name. *)
Definition var_ref (k : string) : string := "var_map['" +:+ k +:+ "']".

(** [for k, v in var_map.items(): expr_str = expr_str.replace(k, ...)]. *)
Definition substitute (keys : list string) (expr_str : string) : string :=
  fold_left (fun s k => replace k (var_ref k) s) keys expr_str.

(** [comp['expr'].split('=')[1].strip()]. *)
Definition formula (c : component) : outcome string :=
  match split "=" c.(expr) with
  | _ :: r :: _ => Ok (strip r)
  | _ => Raise IndexError
  end.

(** The bound expression of one component (lines 72-75). *)
Definition bind_component (lib : library) (keys : list string) (c : component)
  : outcome logic_expr :=
  let* expr_str := formula c in
  let* v := py_eval lib keys (substitute keys expr_str) in
  match v with
  | VExpr e => Ok e
  | _ => Unmodelled
  end.

Fixpoint ofold {A B : Type} (f : A -> B -> outcome A) (l : list B) (a : A)
  : outcome A :=
  match l with
  | [] => Ok a
  | x :: l' => let* a' := f a x in ofold f l' a'
  end.

(** One turn of the inner loop: append the bound expression, record the delay
    under the output's name. *)
Definition evaluate_component (lib : library) (keys : list string)
  (st : list logic_expr * PyDict.t nat) (c : component)
  : outcome (list logic_expr * PyDict.t nat) :=
  let* e := bind_component lib keys c in
  Ok (fst st ++ [e], PyDict.set (snd st) c.(output) c.(delay)).

(** Lines 68-76: [evaluated_exprs] and [temporal_info] after both loops. *)
Definition evaluate_subcircuits (lib : library) (keys : list string)
  (scs : PyDict.t (PyDict.t component))
  : outcome (list logic_expr * PyDict.t nat) :=
  ofold (fun st comps => ofold (evaluate_component lib keys) (PyDict.values comps) st)
        (PyDict.values scs) ([], []).

(** Line 79: [circuit_logic] is what sympy's [And] returns when called on the
    unpacked [evaluated_exprs]. *)
Definition compose (lib : library) (evaluated_exprs : list logic_expr)
  : outcome logic_expr :=
  sympy_And lib evaluated_exprs.

(** ** Temporal simulation (lines 92-96) *)

Definition t_steps : nat := 3.

(** [range(a, b)]. *)
Definition py_range (a b : nat) : list nat := seq a (b - a).

(** [row[i] = x]: Python raises [IndexError] past the end of the list. *)
Definition list_assign (row : list nat) (i x : nat) : outcome (list nat) :=
  if Nat.ltb i (length row) then Ok (<[i:=x]> row) else Raise IndexError.

(** [{var: [0]*t_steps for var in all_vars}], the variables taken in the order
    [vars] in which the set is enumerated. *)
Definition initial_table (vars : list string) : PyDict.t (list nat) :=
  PyDict.of_entries (map (fun var => (var, repeat 0 t_steps)) vars).

(** [sim_table[comp_output][t] = 1]: the row is looked up ([KeyError] when the
    key is missing) and changed in place. *)
Definition mark (tbl : PyDict.t (list nat)) (comp_output : string) (t : nat)
  : outcome (PyDict.t (list nat)) :=
  match PyDict.get tbl comp_output with
  | None => Raise (KeyError comp_output)
  | Some row =>
      let* row' := list_assign row t 1 in
      Ok (PyDict.set tbl comp_output row')
  end.

Definition sim_table (vars : list string) (temporal_info : PyDict.t nat)
  : outcome (PyDict.t (list nat)) :=
  ofold (fun tbl item =>
           ofold (fun tbl t => mark tbl (fst item) t)
                 (py_range (snd item) t_steps) tbl)
        temporal_info (initial_table vars).

(** ** The proof tree (lines 105-135)

    The builder is a recursive Python function; the limit Python puts on the
    depth of recursion is not modelled. *)

(** What a call of the builder reads and changes: the cell of the list
    [counter], the graph [dot] and the dictionary [node_explanations] of the
    enclosing scope. *)
Record builder_state : Type := BuilderState {
  counter : nat;
  dot : digraph;
  node_explanations : PyDict.t string
}.

Section Printer.

(** The text sympy prints for an expression that is not a symbol. *)
Variable str_compound : logic_expr -> string.

(** [str(expr)]: a symbol prints as its name. *)
Definition str (e : logic_expr) : string :=
  match e with
  | Symbol name => name
  | _ => str_compound e
  end.

(** [str(expr.args)]: Python's text of a tuple. *)
Definition str_tuple (args : list logic_expr) : string :=
  match args with
  | [a] => "(" +:+ str a +:+ ",)"
  | _ => "(" +:+ join ", " (map str args) +:+ ")"
  end.

Definition describe_expr (e : logic_expr) : string :=
  match e with
  | And args => "AND combines: " +:+ str_tuple args
  | Or args => "OR combines: " +:+ str_tuple args
  | Not arg => "NOT of: " +:+ str arg
  | _ => "Primitive output: " +:+ str e
  end.

(** [f"n{counter[0]}"]. *)
Definition node_id (n : nat) : string := "n" +:+ pretty n.

Definition add_node (g : digraph) (n : node) : digraph :=
  {| nodes := nodes g ++ [n]; edges := edges g |}.

(** [if parent: dot.edge(parent, node_id)]: [None] and the empty string
    are false. *)
Definition add_edge_from (parent : option string) (child : string) (g : digraph)
  : digraph :=
  match parent with
  | Some p =>
      if String.eqb p EmptyString then g
      else {| nodes := nodes g; edges := edges g ++ [(p, child)] |}
  | None => g
  end.

(** The state after the lines 120-127 of one call. *)
Definition visit (e : logic_expr) (parent : option string) (st : builder_state)
  : builder_state :=
  let id := node_id (counter st) in
  let explanation := describe_expr e in
  {| counter := S (counter st);
     dot := add_edge_from parent id
              (add_node (dot st)
                 {| node_name := id; label := str e;
                    URL := "#" +:+ id; tooltip := explanation |});
     node_explanations := PyDict.set (node_explanations st) id explanation |}.

Fixpoint build_proof_tree_clickable (e : logic_expr) (parent : option string)
  (st : builder_state) : builder_state :=
  let id := node_id (counter st) in
  let st1 := visit e parent st in
  match e with
  | And args | Or args =>
      fold_left (fun s arg => build_proof_tree_clickable arg (Some id) s) args st1
  | Not arg => build_proof_tree_clickable arg (Some id) st1
  | Symbol _ => st1
  end.

Definition empty_digraph : digraph := {| nodes := []; edges := [] |}.

(** A call [build_proof_tree_clickable(expr)] that leaves the other
    arguments to their defaults: [dot] is a new graph, while [counter] is the
    one list made when the [def] ran, whose cell holds [cell] by now, and
    [node_explanations] is the dictionary of the enclosing scope. *)
Definition call_builder (cell : nat) (explanations : PyDict.t string)
  (e : logic_expr) : builder_state :=
  build_proof_tree_clickable e None
    {| counter := cell; dot := empty_digraph; node_explanations := explanations |}.

(** Line 105, the [def] of lines 117-133 and the call of line 135, as one run
    of the script executes them. *)
Definition proof_tree (circuit_logic : logic_expr) : builder_state :=
  call_builder 0 [] circuit_logic.

(** ** One analysis run (lines 56-143) *)

Record analysis : Type := Analysis {
  circuit_logic : logic_expr;
  temporal_table : PyDict.t (list nat);
  proof : builder_state
}.

(** The body of the [try] (lines 56-143): [vars] is the order in which this
    run enumerates the set [all_vars].  An exception raised here is caught by
    line 146 and shown as an error message in place of the results. *)
Definition analyse (lib : library) (vars : list string)
  (scs : PyDict.t (PyDict.t component)) : outcome analysis :=
  let* keys := var_map_keys (sympy_symbols lib) vars in
  let* st := evaluate_subcircuits lib keys scs in
  let* logic := compose lib (fst st) in
  let* _ := inspect lib logic in
  let* tbl := sim_table vars (snd st) in
  let* _ := show_table lib tbl in
  let tree := proof_tree logic in
  let* _ := render lib (dot tree) in
  Ok {| circuit_logic := logic; temporal_table := tbl; proof := tree |}.

End Printer.

(** Lines 44-49: the displayed text of the whole circuit, computed before the
    [try]; an exception here ends the run. *)
Definition full_circuit_expr (scs : PyDict.t (PyDict.t component)) : outcome string :=
  let* top_level_exprs :=
    ofold (fun acc c => let* r := formula c in Ok (acc ++ [r])) (all_components scs) [] in
  Ok (join " & " top_level_exprs).

(** sympy's infix notation for the three operators, an operand that is itself
    an operation in parentheses. *)
Fixpoint infix_str (e : logic_expr) : string :=
  let operand (x : logic_expr) : string :=
    match x with
    | Symbol _ | Not _ => infix_str x
    | _ => "(" +:+ infix_str x +:+ ")"
    end in
  match e with
  | Symbol name => name
  | And args => join " & " (map operand args)
  | Or args => join " | " (map operand args)
  | Not (Symbol name) => "~" +:+ name
  | Not arg => "~(" +:+ infix_str arg +:+ ")"
  end.


(** ** A library for the examples

    The part of sympy's behaviour the examples rest on, and nothing beyond it:
    [Not] of a negation is the negated object and [Not] of anything else is a
    [Not] object; [And] and [Or] of one object are that object; [And] and [Or]
    of symbols are the object over the distinct symbols in the order of their
    names, or the symbol itself when there is only one.  Every other call of
    the three classes is [Unmodelled].  The remaining calls return, and
    [symbols] is left unmodelled on names that are not plain. *)

(** A name put in its place in a list of distinct names in ascending order. *)
Fixpoint insert_name (x : string) (l : list string) : list string :=
  match l with
  | [] => [x]
  | y :: l' =>
      match String.compare x y with
      | Lt => x :: l
      | Eq => l
      | Gt => y :: insert_name x l'
      end
  end.

Definition sorted_names (l : list string) : list string :=
  fold_right insert_name [] l.

Fixpoint symbol_names (es : list logic_expr) : option (list string) :=
  match es with
  | [] => Some []
  | Symbol x :: es' => option_map (cons x) (symbol_names es')
  | _ :: _ => None
  end.

Definition lattice_of_symbols (make : list logic_expr -> logic_expr)
  (es : list logic_expr) : outcome logic_expr :=
  match es with
  | [e] => Ok e
  | _ =>
      match option_map sorted_names (symbol_names es) with
      | Some [x] => Ok (Symbol x)
      | Some (x :: y :: names) => Ok (make (map Symbol (x :: y :: names)))
      | _ => Unmodelled
      end
  end.

Definition negation (es : list logic_expr) : outcome logic_expr :=
  match es with
  | [Not a] => Ok a
  | [e] => Ok (Not e)
  | _ => Unmodelled
  end.

Definition reference_library : library :=
  {| sympy_And := lattice_of_symbols And;
     sympy_Or := lattice_of_symbols Or;
     sympy_Not := negation;
     sympy_symbols := fun _ => Unmodelled;
     inspect := fun _ => Ok tt;
     show_table := fun _ => Ok tt;
     render := fun _ => Ok tt |}.

(** ** Reference descriptions used in the statements *)

(** The row of an output whose delay is [d]: 0 before step [d], 1 from it on. *)
Definition delayed_row (d : nat) : list nat :=
  map (fun t => if Nat.ltb t d then 0 else 1) (seq 0 t_steps).

(** The delay map as a function of the components met, in their order. *)
Definition delays_of (cs : list component) : PyDict.t nat :=
  PyDict.of_entries (map (fun c => (output c, delay c)) cs).

(** A table with one row per variable, the row given by [rows]. *)
Definition tabulate (rows : string -> list nat) (vars : list string)
  : PyDict.t (list nat) :=
  map (fun var => (var, rows var)) vars.

(** A row after [row[t] = 1] for every [t] of [range(d, t_steps)]. *)
Definition raise_from (d : nat) (row : list nat) : list nat :=
  fold_left (fun r t => <[t:=1]> r) (py_range d t_steps) row.

(** The rows after the outer loop has met [items]. *)
Fixpoint rows_after (items : list (string * nat)) (rows : string -> list nat)
  : string -> list nat :=
  match items with
  | [] => rows
  | (k, d) :: items' =>
      rows_after items' (fun v => if String.eqb v k then raise_from d (rows k) else rows v)
  end.

(** Number of nodes of an expression. *)
Fixpoint size (e : logic_expr) : nat :=
  match e with
  | Symbol _ => 1
  | And args | Or args => S (list_sum (map size args))
  | Not arg => S (size arg)
  end.

(** The sub-expressions in pre-order: an expression before its operands, the
    operands from the left. *)
Fixpoint preorder (e : logic_expr) : list logic_expr :=
  e :: match e with
       | Symbol _ => []
       | And args | Or args => flat_map preorder args
       | Not arg => preorder arg
       end.

(** The operands of an operator node. *)
Definition operands (e : logic_expr) : list logic_expr :=
  match e with
  | Symbol _ => []
  | And args | Or args => args
  | Not arg => [arg]
  end.

(** [l] paired with the consecutive numbers from [c]. *)
Fixpoint number_from (c : nat) (l : list logic_expr) : list (nat * logic_expr) :=
  match l with
  | [] => []
  | e :: l' => (c, e) :: number_from (S c) l'
  end.

(** Pre-order positions of the operands [l] of a node, the first at [next]. *)
Fixpoint positions_from (next : nat) (l : list logic_expr) : list nat :=
  match l with
  | [] => []
  | a :: l' => next :: positions_from (next + size a) l'
  end.

Definition child_positions (c : nat) (e : logic_expr) : list nat :=
  positions_from (S c) (operands e).

(** The edges from the node at position [p] to its operands [l], the first of
    them at position [next], each followed by the edges inside that operand
    (given by [inside]). *)
Fixpoint children_edges (inside : nat -> logic_expr -> list (nat * nat))
  (p next : nat) (l : list logic_expr) : list (nat * nat) :=
  match l with
  | [] => []
  | a :: l' => (p, next) :: inside next a ++ children_edges inside p (next + size a) l'
  end.

(** The parent-to-child edges inside the expression whose root has pre-order
    position [c], in the order a pre-order walk meets the children. *)
Fixpoint subtree_edges (c : nat) (e : logic_expr) : list (nat * nat) :=
  match e with
  | Symbol _ => []
  | And args | Or args => children_edges subtree_edges c (S c) args
  | Not arg => (c, S c) :: subtree_edges (S c) arg
  end.

Definition named_edge (pc : nat * nat) : string * string :=
  ("n" +:+ pretty (fst pc), "n" +:+ pretty (snd pc)).

(** The targets of the edges that leave the node [id]. *)
Definition children_of (g : digraph) (id : string) : list string :=
  map snd (List.filter (fun pc => String.eqb (fst pc) id) (edges g)).

Section PrinterSpec.

Variable str_compound : logic_expr -> string.

(** The node the builder makes for [e] when the counter holds [i]. *)
Definition node_of (ie : nat * logic_expr) : node :=
  {| node_name := node_id (fst ie);
     label := str str_compound (snd ie);
     URL := "#" +:+ node_id (fst ie);
     tooltip := describe_expr str_compound (snd ie) |}.

Definition explain (d : PyDict.t string) (ie : nat * logic_expr) : PyDict.t string :=
  PyDict.set d (node_id (fst ie)) (describe_expr str_compound (snd ie)).

(** The edge a call adds for its own node. *)
Definition parent_edge (parent : option string) (c : nat) : list (string * string) :=
  match parent with
  | Some p => if String.eqb p EmptyString then [] else [(p, node_id c)]
  | None => []
  end.

(** What a call on [e] adds to the state it starts from. *)
Definition extends (e : logic_expr) (parent : option string)
  (st : builder_state) : builder_state :=
  {| counter := counter st + size e;
     dot := {| nodes := nodes (dot st)
                        ++ map node_of
                             (number_from (counter st) (preorder e));
               edges := edges (dot st) ++ parent_edge parent (counter st)
                        ++ map named_edge (subtree_edges (counter st) e) |};
     node_explanations :=
       fold_left explain (number_from (counter st) (preorder e))
                 (node_explanations st) |}.

End PrinterSpec.

(** ** Sample circuits *)

(** Two components in one sub-circuit, the second reading the first one's
    output. *)
Definition gate_and : component :=
  {| inputs := ["x"; "z"]; output := "y1"; expr := "y1 = And(x,z)"; delay := 0 |}.

Definition gate_or : component :=
  {| inputs := ["y1"; "w"]; output := "y2"; expr := "y2 = Or(y1,w)"; delay := 1 |}.

Definition two_gates : form := [("SC1", [("C11", gate_and); ("C12", gate_or)])].

(** Two components that pass a signal on unchanged. *)
Definition wire_z : component :=
  {| inputs := ["z"]; output := "y1"; expr := "y1 = z"; delay := 0 |}.

Definition wire_x : component :=
  {| inputs := ["x"]; output := "y2"; expr := "y2 = x"; delay := 1 |}.

Definition two_wires : form := [("SC1", [("C11", wire_z); ("C12", wire_x)])].

(** Two components that drive the same output with different delays. *)
Definition driver_fast : component :=
  {| inputs := ["x"]; output := "y"; expr := "y = Not(x)"; delay := 0 |}.

Definition driver_slow : component :=
  {| inputs := ["z"]; output := "y"; expr := "y = Not(z)"; delay := 2 |}.

Definition two_drivers : form := [("SC1", [("C11", driver_fast); ("C12", driver_slow)])].

(** The entries the form holds before anything is typed into it: one
    sub-circuit, one component, the default texts of the widgets. *)
Definition default_component : component :=
  {| inputs := ["A"; "B"]; output := "Y11"; expr := "Y11 = And(A,B)"; delay := 0 |}.

Definition default_form : form := [("SC1", [("C11", default_component)])].

(** Two components entered under the same name in one sub-circuit. *)
Definition named_alike : form := [("SC1", [("C11", driver_fast); ("C11", driver_slow)])].

(** A form in which two sub-circuits, or two components of one sub-circuit,
    have the same name. *)
Definition has_duplicate_name (f : form) : bool :=
  negb (bool_decide (NoDup (map fst f)))
  || existsb (fun sc => negb (bool_decide (NoDup (map fst (snd sc))))) f.


(** One inverter with delay 2. *)
Definition inverter : component :=
  {| inputs := ["A"]; output := "Y1"; expr := "Y1 = Not(A)"; delay := 2 |}.

Definition one_inverter : form := [("SC1", [("C1", inverter)])].

(** A component with an input named by a single underscore, a character that
    also occurs in the text [var_map] that replaces a name. *)
Definition gate_underscore : component :=
  {| inputs := ["Q"; "_"]; output := "Y"; expr := "Y = Not(Q)"; delay := 0 |}.

Definition one_underscore : form := [("SC1", [("C11", gate_underscore)])].

(** ** Formula texts and the names in them *)

(** [k in s]: the text [k] occurs somewhere in [s]. *)
Fixpoint occurs (k s : string) : bool :=
  String.prefix k s
  || match s with
     | EmptyString => false
     | String _ s' => occurs k s'
     end.

Definition has_char (c : ascii) (s : string) : bool := string_exists (Ascii.eqb c) s.

(** The text of an expression in the notation the form suggests, calls
    without blanks, each variable written as [pr] gives it. *)
Fixpoint show_with (pr : string -> string) (e : logic_expr) : string :=
  match e with
  | Symbol x => pr x
  | And args => "And(" +:+ join "," (map (show_with pr) args) +:+ ")"
  | Or args => "Or(" +:+ join "," (map (show_with pr) args) +:+ ")"
  | Not arg => "Not(" +:+ show_with pr arg +:+ ")"
  end.

(** The formula as a user types it, and as it reaches [eval] when every
    variable, and nothing else, has been replaced by its lookup. *)
Definition show (e : logic_expr) : string := show_with (fun x => x) e.
Definition show_bound (e : logic_expr) : string := show_with var_ref e.

(** The variables an expression mentions. *)
Fixpoint symbols_of (e : logic_expr) : list string :=
  match e with
  | Symbol x => [x]
  | And args | Or args => flat_map symbols_of args
  | Not arg => symbols_of arg
  end.

(** How deep the brackets of the bound text nest. *)
Fixpoint depth (e : logic_expr) : nat :=
  match e with
  | Symbol _ => 1
  | And args | Or args => S (list_max (map depth args))
  | Not arg => S (depth arg)
  end.

(** Names that the replacement of line 74 treats as whole words: each is
    plain, none occurs in the operator names or in the text [var_map], none
    occurs in another, and none is listed twice. *)
Definition separated (keys : list string) : bool :=
  forallb (fun k =>
             plain_name k
             && negb (occurs k "And") && negb (occurs k "Or")
             && negb (occurs k "Not") && negb (occurs k "var_map")
             && forallb (fun k' => String.eqb k k' || negb (occurs k k')) keys)
          keys
  && bool_decide (NoDup keys).

(** The text of a variable once the names in [done] have been replaced. *)
Definition written (done : list string) (x : string) : string :=
  if existsb (String.eqb x) done then var_ref x else x.

(** A name that stands free in the text handed to [eval]: an identifier that
    is no keyword and that nothing has bound. *)
Definition free_name (x : string) : bool :=
  match x with
  | String c _ => is_ident_start c
  | EmptyString => false
  end
  && string_forall is_ident_char x
  && negb (existsb (String.eqb x) keywords)
  && match lookup_name x with
     | Raise (NameError _) => true
     | _ => false
     end.

(** A name of a formula that the replacement of line 74 treats as a whole:
    a declared name, or a free name in which no declared name occurs. *)
Definition admissible (keys : list string) (x : string) : bool :=
  existsb (String.eqb x) keys
  || (free_name x && forallb (fun k => negb (occurs k x)) keys).

Definition outcome_map {A B : Type} (f : A -> B) (m : outcome A) : outcome B :=
  let* v := m in Ok (f v).

(** The calls a formula writes, made from the inside out and from the left on
    the declared symbols; a name that is not declared raises [NameError] when
    its turn comes. *)
Fixpoint perform (lib : library) (keys : list string) (e : logic_expr)
  : outcome logic_expr :=
  let perform_each :=
    fix perform_each (l : list logic_expr) : outcome (list logic_expr) :=
      match l with
      | [] => Ok []
      | a :: l' =>
          let* v := perform lib keys a in
          let* vs := perform_each l' in
          Ok (v :: vs)
      end in
  match e with
  | Symbol x =>
      if existsb (String.eqb x) keys then Ok (Symbol x) else Raise (NameError x)
  | And args => let* vs := perform_each args in sympy_And lib vs
  | Or args => let* vs := perform_each args in sympy_Or lib vs
  | Not arg => let* v := perform lib keys arg in sympy_Not lib [v]
  end.

(** The same for the formulas of a list of components, one after the other. *)
Fixpoint perform_all (lib : library) (keys : list string) (es : list logic_expr)
  : outcome (list logic_expr) :=
  match es with
  | [] => Ok []
  | e :: es' =>
      let* v := perform lib keys e in
      let* vs := perform_all lib keys es' in
      Ok (v :: vs)
  end.

(** A text before which a name ends: the end, a comma or a closing
    parenthesis. *)
Definition closes (rest : string) : bool :=
  match rest with
  | EmptyString => true
  | String c _ => Ascii.eqb c "," || Ascii.eqb c ")"
  end.




(** The tokens of a list of arguments, commas between them. *)
Fixpoint join_tokens (l : list (list token)) : list token :=
  match l with
  | [] => []
  | [ts] => ts
  | ts :: l' => ts ++ TComma :: join_tokens l'
  end.

(** The tokens of the text of a formula in which the names [keys] have been
    replaced. *)
Fixpoint toks (keys : list string) (e : logic_expr) : list token :=
  match e with
  | Symbol x =>
      if existsb (String.eqb x) keys
      then [TName "var_map"; TLBrk; TStr x; TRBrk]
      else [TName x]
  | And args => TName "And" :: TLPar :: join_tokens (map (toks keys) args) ++ [TRPar]
  | Or args => TName "Or" :: TLPar :: join_tokens (map (toks keys) args) ++ [TRPar]
  | Not arg => TName "Not" :: TLPar :: join_tokens [toks keys arg] ++ [TRPar]
  end.

(** The Python expression that text is read as. *)
Fixpoint ast_of (keys : list string) (e : logic_expr) : ast :=
  match e with
  | Symbol x =>
      if existsb (String.eqb x) keys then ASub (AName "var_map") (AStr x)
      else AName x
  | And args => ACall (AName "And") (map (ast_of keys) args)
  | Or args => ACall (AName "Or") (map (ast_of keys) args)
  | Not arg => ACall (AName "Not") [ast_of keys arg]
  end.


(** ** One run of the script *)

(** What a run ends in: the exception of line 47, which nothing catches; the
    error message of line 147; or the displayed circuit text and results. *)
Inductive run_result : Type :=
  | Crashed (e : exn)
  | Reported (e : exn)
  | Displayed (text : string) (a : analysis)
  | NotModelled.

Definition run (str_compound : logic_expr -> string) (lib : library)
  (vars : list string) (scs : PyDict.t (PyDict.t component)) : run_result :=
  match full_circuit_expr scs with
  | Raise e => Crashed e
  | Unmodelled => NotModelled
  | Ok text =>
      match analyse str_compound lib vars scs with
      | Ok a => Displayed text a
      | Raise e => Reported e
      | Unmodelled => NotModelled
      end
  end.

(** ** The circuit diagram (lines 153-158) *)

(** The statements a [graphviz.Digraph] collects, in the order of the calls. *)
Inductive statement : Type :=
  | NodeStmt (name label : string)
  | EdgeStmt (tail head : string).

(** [f"{comp['output']} ({comp['delay']}t)"]. *)
Definition delay_label (comp : component) : string :=
  comp.(output) +:+ " (" +:+ pretty comp.(delay) +:+ "t)".

(** One turn of the inner loop: the node of the output, then an edge from
    every input. *)
Definition draw_component (body : list statement) (comp : component)
  : list statement :=
  fold_left (fun b inp => b ++ [EdgeStmt inp comp.(output)]) comp.(inputs)
            (body ++ [NodeStmt comp.(output) (delay_label comp)]).

Definition circuit_diagram (scs : PyDict.t (PyDict.t component)) : list statement :=
  fold_left (fun b comps => fold_left draw_component (PyDict.values comps) b)
            (PyDict.values scs) [].

(** The statements one component contributes. *)
Definition component_statements (comp : component) : list statement :=
  NodeStmt comp.(output) (delay_label comp)
  :: map (fun inp => EdgeStmt inp comp.(output)) comp.(inputs).


(** Every edge statement comes after a node statement for its head. *)
Definition heads_declared (body : list statement) : Prop :=
  forall b1 i o b2, body = b1 ++ EdgeStmt i o :: b2 -> exists l, NodeStmt o l ∈ b1.

(** * Properties *)

(** ** Dictionaries *)

Module PyDictFacts.
Import PyDict.

Section Facts.
Context {V : Type}.
Implicit Types (d : PyDict.t V) (k : string) (v : V).

Lemma get_set_eq d k v : get (set d k v) k = Some v.
Proof.
  induction d as [|[k' v'] d IH]; simpl.
  - now rewrite String.eqb_refl.
  - destruct (String.eqb_spec k' k) as [->|Hne]; simpl.
    + now rewrite String.eqb_refl.
    + apply String.eqb_neq in Hne. now rewrite Hne.
Qed.

Lemma get_set_ne d k k' v : k <> k' -> get (set d k v) k' = get d k'.
Proof.
  intros Hne. induction d as [|[k0 v0] d IH]; simpl.
  - apply String.eqb_neq in Hne. now rewrite Hne.
  - destruct (String.eqb_spec k0 k) as [->|Hk]; simpl.
    + apply String.eqb_neq in Hne. now rewrite Hne.
    + now rewrite IH.
Qed.

Lemma get_None d k : get d k = None <-> k ∉ keys d.
Proof.
  induction d as [|[k0 v0] d IH]; simpl.
  - split; [intros _; apply not_elem_of_nil | reflexivity].
  - rewrite not_elem_of_cons.
    destruct (String.eqb_spec k0 k) as [->|Hk].
    + split; [discriminate | intros [H _]; now destruct H].
    + rewrite IH. split; [intros H; split; [congruence | exact H] | intros [_ H]; exact H].
Qed.

Lemma get_Some_elem d k v : get d k = Some v -> (k, v) ∈ d.
Proof.
  induction d as [|[k0 v0] d IH]; simpl; [discriminate|].
  destruct (String.eqb_spec k0 k) as [->|Hk].
  - intros [= ->]. apply elem_of_cons. now left.
  - intros H. apply elem_of_cons. right. now apply IH.
Qed.

Lemma elem_get d k v : NoDup (keys d) -> (k, v) ∈ d -> get d k = Some v.
Proof.
  induction d as [|[k0 v0] d IH]; simpl; intros Hnd Hin.
  - now apply elem_of_nil in Hin.
  - apply NoDup_cons in Hnd as [Hk0 Hnd].
    apply elem_of_cons in Hin as [[= -> ->]|Hin].
    + now rewrite String.eqb_refl.
    + destruct (String.eqb_spec k0 k) as [->|Hk]; [|now apply IH].
      exfalso. apply Hk0. unfold keys.
      apply list_elem_of_fmap. now exists (k, v).
Qed.

Lemma set_present d k v : k ∈ keys d -> keys (set d k v) = keys d.
Proof.
  induction d as [|[k0 v0] d IH]; simpl; intros Hin.
  - now apply elem_of_nil in Hin.
  - destruct (String.eqb_spec k0 k) as [->|Hk]; simpl; [reflexivity|].
    apply elem_of_cons in Hin as [->|Hin]; [congruence|].
    f_equal. now apply IH.
Qed.

Lemma set_absent d k v : k ∉ keys d -> set d k v = d ++ [(k, v)].
Proof.
  induction d as [|[k0 v0] d IH]; simpl; intros Hin; [reflexivity|].
  apply not_elem_of_cons in Hin as [Hne Hin].
  destruct (String.eqb_spec k0 k) as [->|Hk]; [congruence|].
  f_equal. now apply IH.
Qed.

Lemma elem_keys_set d k v k' : k' ∈ keys (set d k v) <-> k' = k \/ k' ∈ keys d.
Proof.
  destruct (decide (k ∈ keys d)) as [Hin|Hin].
  - rewrite (set_present _ _ _ Hin). split; [now right | intros [->|H]; assumption].
  - rewrite (set_absent _ _ _ Hin). unfold keys. rewrite fmap_app, elem_of_app.
    simpl. rewrite list_elem_of_singleton. tauto.
Qed.

Lemma NoDup_keys_set d k v : NoDup (keys d) -> NoDup (keys (set d k v)).
Proof.
  intros Hnd. destruct (decide (k ∈ keys d)) as [Hin|Hin].
  - now rewrite (set_present _ _ _ Hin).
  - rewrite (set_absent _ _ _ Hin). unfold keys. rewrite fmap_app. simpl.
    apply NoDup_app. split; [exact Hnd|]. split.
    + intros x Hx Hx'. apply list_elem_of_singleton in Hx'. now subst.
    + apply NoDup_singleton.
Qed.

Lemma of_entries_snoc (es : list (string * V)) k v :
  of_entries (es ++ [(k, v)]) = set (of_entries es) k v.
Proof. unfold of_entries. now rewrite fold_left_app. Qed.

Lemma NoDup_keys_of_entries (es : list (string * V)) : NoDup (keys (of_entries es)).
Proof.
  induction es as [|[k v] es IH] using rev_ind.
  - apply NoDup_nil_2.
  - rewrite of_entries_snoc. now apply NoDup_keys_set.
Qed.

Lemma elem_keys_of_entries (es : list (string * V)) k :
  k ∈ keys (of_entries es) <-> k ∈ map fst es.
Proof.
  induction es as [|[k0 v0] es IH] using rev_ind.
  - reflexivity.
  - rewrite of_entries_snoc, elem_keys_set, IH, map_app, elem_of_app.
    simpl. rewrite list_elem_of_singleton. tauto.
Qed.

(** The value under a key is the one of the last entry with that key. *)
Lemma get_of_entries_last (es1 es2 : list (string * V)) k v :
  k ∉ map fst es2 -> get (of_entries (es1 ++ (k, v) :: es2)) k = Some v.
Proof.
  induction es2 as [|[k0 v0] es2 IH] using rev_ind; intros Hk.
  - rewrite of_entries_snoc. apply get_set_eq.
  - rewrite map_app, not_elem_of_app in Hk. destruct Hk as [Hk Hk0].
    simpl in Hk0. rewrite not_elem_of_cons in Hk0. destruct Hk0 as [Hk0 _].
    replace (es1 ++ (k, v) :: es2 ++ [(k0, v0)])
      with ((es1 ++ (k, v) :: es2) ++ [(k0, v0)]) by now rewrite <- app_assoc.
    rewrite of_entries_snoc, get_set_ne by congruence. now apply IH.
Qed.

Lemma of_entries_NoDup (es : list (string * V)) :
  NoDup (map fst es) -> of_entries es = es.
Proof.
  induction es as [|[k v] es IH] using rev_ind; intros Hnd; [reflexivity|].
  rewrite map_app in Hnd. apply NoDup_app in Hnd as (Hnd & Hdisj & _).
  rewrite of_entries_snoc, IH by exact Hnd.
  apply set_absent. intros Hin. apply (Hdisj k Hin). simpl.
  apply list_elem_of_singleton. reflexivity.
Qed.

End Facts.
End PyDictFacts.

(** ** Outcomes and loops *)

Lemma obind_Ok {A B : Type} (m : outcome A) (f : A -> outcome B) (b : B) :
  obind m f = Ok b -> exists a, m = Ok a /\ f a = Ok b.
Proof. destruct m; simpl; [eauto | discriminate | discriminate]. Qed.

Lemma fold_left_flat_map {A B C : Type} (f : A -> C -> A) (g : B -> list C)
  (ls : list B) (a : A) :
  fold_left (fun a l => fold_left f (g l) a) ls a = fold_left f (flat_map g ls) a.
Proof.
  revert a. induction ls as [|l ls IH]; intros a; simpl; [reflexivity|].
  now rewrite fold_left_app, IH.
Qed.

Lemma ofold_app {A B : Type} (f : A -> B -> outcome A) (l1 l2 : list B) (a : A) :
  ofold f (l1 ++ l2) a = let* a' := ofold f l1 a in ofold f l2 a'.
Proof.
  revert a. induction l1 as [|x l1 IH]; intros a; simpl; [reflexivity|].
  destruct (f a x); simpl; [apply IH | reflexivity | reflexivity].
Qed.

Lemma ofold_flat_map {A B C : Type} (f : A -> C -> outcome A) (g : B -> list C)
  (ls : list B) (a : A) :
  ofold (fun a l => ofold f (g l) a) ls a = ofold f (flat_map g ls) a.
Proof.
  revert a. induction ls as [|l ls IH]; intros a; simpl; [reflexivity|].
  rewrite ofold_app. destruct (ofold f (g l) a); simpl; [apply IH | reflexivity | reflexivity].
Qed.

(** ** The variable universe *)

Lemma elem_set_add (s : list string) (x y : string) :
  y ∈ set_add s x <-> y = x \/ y ∈ s.
Proof.
  unfold set_add. destruct (existsb (String.eqb x) s) eqn:E.
  - apply existsb_exists in E as (z & Hz & Hxz). apply String.eqb_eq in Hxz. subst z.
    apply list_elem_of_In in Hz. split; [now right | intros [->|H]; assumption].
  - rewrite elem_of_app, list_elem_of_singleton. tauto.
Qed.

Lemma NoDup_set_add (s : list string) (x : string) : NoDup s -> NoDup (set_add s x).
Proof.
  intros Hnd. unfold set_add. destruct (existsb (String.eqb x) s) eqn:E; [exact Hnd|].
  apply NoDup_app. split; [exact Hnd|]. split; [|apply NoDup_singleton].
  intros y Hy Hy'. apply list_elem_of_singleton in Hy'. subst y.
  assert (existsb (String.eqb x) s = true); [|congruence].
  apply existsb_exists. exists x. split; [now apply list_elem_of_In | apply String.eqb_refl].
Qed.

Lemma elem_fold_set_add (l s : list string) (y : string) :
  y ∈ fold_left set_add l s <-> y ∈ l \/ y ∈ s.
Proof.
  revert s. induction l as [|x l IH]; intros s; simpl.
  - rewrite elem_of_nil. tauto.
  - rewrite IH, elem_set_add, elem_of_cons. tauto.
Qed.

Lemma NoDup_fold_set_add (l s : list string) : NoDup s -> NoDup (fold_left set_add l s).
Proof.
  revert s. induction l as [|x l IH]; intros s Hnd; simpl; [exact Hnd|].
  apply IH. now apply NoDup_set_add.
Qed.

Lemma all_vars_flat (scs : PyDict.t (PyDict.t component)) :
  all_vars scs = fold_left add_component_vars (all_components scs) [].
Proof. unfold all_vars, all_components. apply fold_left_flat_map. Qed.

Lemma elem_fold_component_vars (cs : list component) (s : list string) (y : string) :
  y ∈ fold_left add_component_vars cs s <->
  y ∈ s \/ exists c, c ∈ cs /\ (y = output c \/ y ∈ inputs c).
Proof.
  revert s. induction cs as [|c cs IH]; intros s; simpl.
  - split; [now left | intros [H|(c & Hc & _)]; [exact H | now apply elem_of_nil in Hc]].
  - rewrite IH. unfold add_component_vars at 1.
    rewrite elem_set_add, elem_fold_set_add. split.
    + intros [[->|[H|H]]|(c' & Hc' & H)].
      * right. exists c. split; [apply elem_of_cons; now left | now left].
      * right. exists c. split; [apply elem_of_cons; now left | now right].
      * now left.
      * right. exists c'. split; [apply elem_of_cons; now right | exact H].
    + intros [H|(c' & Hc' & H)]; [left; right; now right|].
      apply elem_of_cons in Hc' as [->|Hc'].
      * left. destruct H as [->|H]; [now left | right; now left].
      * right. now exists c'.
Qed.

Lemma NoDup_fold_component_vars (cs : list component) (s : list string) :
  NoDup s -> NoDup (fold_left add_component_vars cs s).
Proof.
  revert s. induction cs as [|c cs IH]; intros s Hnd; simpl; [exact Hnd|].
  apply IH. unfold add_component_vars. now apply NoDup_set_add, NoDup_fold_set_add.
Qed.

Lemma NoDup_all_vars (scs : PyDict.t (PyDict.t component)) : NoDup (all_vars scs).
Proof. rewrite all_vars_flat. apply NoDup_fold_component_vars, NoDup_nil_2. Qed.

Lemma output_in_all_vars (scs : PyDict.t (PyDict.t component)) (c : component) :
  c ∈ all_components scs -> output c ∈ all_vars scs.
Proof.
  intros Hc. rewrite all_vars_flat. apply elem_fold_component_vars.
  right. exists c. split; [exact Hc | now left].
Qed.

(** ** The simulation table *)

Import PyDict PyDictFacts.

Lemma get_tabulate (rows : string -> list nat) (vars : list string) (v : string) :
  v ∈ vars -> get (tabulate rows vars) v = Some (rows v).
Proof.
  induction vars as [|x vars IH]; simpl; intros Hin.
  - now apply elem_of_nil in Hin.
  - destruct (String.eqb_spec x v) as [->|Hne]; [reflexivity|].
    apply elem_of_cons in Hin as [->|Hin]; [congruence | now apply IH].
Qed.

Lemma set_tabulate (rows : string -> list nat) (vars : list string) (k : string)
  (r : list nat) :
  NoDup vars -> k ∈ vars ->
  set (tabulate rows vars) k r
  = tabulate (fun v => if String.eqb v k then r else rows v) vars.
Proof.
  induction vars as [|x vars IH]; simpl; intros Hnd Hin.
  - now apply elem_of_nil in Hin.
  - apply NoDup_cons in Hnd as [Hx Hnd].
    destruct (String.eqb_spec x k) as [->|Hne].
    + f_equal. unfold tabulate. apply map_ext_in. intros v Hv.
      apply list_elem_of_In in Hv.
      destruct (String.eqb_spec v k) as [->|_]; [contradiction | reflexivity].
    + apply elem_of_cons in Hin as [->|Hin]; [congruence|].
      f_equal. now apply IH.
Qed.

Lemma tabulate_ext (f g : string -> list nat) (vars : list string) :
  (forall v, v ∈ vars -> f v = g v) -> tabulate f vars = tabulate g vars.
Proof.
  intros H. unfold tabulate. apply map_ext_in. intros v Hv.
  f_equal. apply H. now apply list_elem_of_In.
Qed.

Lemma length_raise_steps (ts : list nat) (row : list nat) :
  length (fold_left (fun r t => <[t:=1]> r) ts row) = length row.
Proof.
  revert row. induction ts as [|t ts IH]; intros row; simpl; [reflexivity|].
  now rewrite IH, length_insert.
Qed.

(** The inner loop of lines 95-96 on a table that has the row. *)
Lemma mark_steps (rows : string -> list nat) (vars : list string) (k : string)
  (ts : list nat) :
  NoDup vars -> k ∈ vars -> Forall (fun t => t < length (rows k)) ts ->
  ofold (fun tbl t => mark tbl k t) ts (tabulate rows vars)
  = Ok (tabulate (fun v => if String.eqb v k
                           then fold_left (fun r t => <[t:=1]> r) ts (rows k)
                           else rows v) vars).
Proof.
  intros Hnd Hk. revert rows. induction ts as [|t ts IH]; intros rows Hts; simpl.
  - f_equal. apply tabulate_ext. intros v _.
    destruct (String.eqb_spec v k) as [->|_]; reflexivity.
  - apply Forall_cons in Hts as [Ht Hts].
    unfold mark at 1. rewrite (get_tabulate _ _ _ Hk). unfold list_assign.
    apply Nat.ltb_lt in Ht. rewrite Ht. simpl.
    rewrite (set_tabulate _ _ _ _ Hnd Hk), IH.
    + f_equal. apply tabulate_ext. intros v _. rewrite String.eqb_refl.
      destruct (String.eqb v k); reflexivity.
    + rewrite String.eqb_refl, length_insert. exact Hts.
Qed.

Lemma py_range_bound (d n : nat) : Forall (fun t => t < n) (py_range d n).
Proof.
  apply Forall_forall. intros t Ht. apply list_elem_of_In in Ht.
  unfold py_range in Ht. apply in_seq in Ht. lia.
Qed.


Lemma sim_loop (items : list (string * nat)) (rows : string -> list nat)
  (vars : list string) :
  NoDup vars -> Forall (fun item => fst item ∈ vars) items ->
  (forall v, length (rows v) = t_steps) ->
  ofold (fun tbl item =>
           ofold (fun tbl t => mark tbl (fst item) t) (py_range (snd item) t_steps) tbl)
        items (tabulate rows vars)
  = Ok (tabulate (rows_after items rows) vars).
Proof.
  intros Hnd. revert rows. induction items as [|[k d] items IH]; intros rows Hin Hlen.
  - reflexivity.
  - apply Forall_cons in Hin as [Hk Hin]. simpl in Hk. cbn [ofold fst snd].
    rewrite mark_steps; [| exact Hnd | exact Hk | rewrite Hlen; apply py_range_bound].
    cbn [obind rows_after]. apply IH; [exact Hin|].
    intros v. destruct (String.eqb v k); [|apply Hlen].
    unfold raise_from. now rewrite length_raise_steps.
Qed.

Lemma rows_after_absent (items : list (string * nat)) (rows : string -> list nat)
  (k : string) :
  k ∉ map fst items -> rows_after items rows k = rows k.
Proof.
  revert rows. induction items as [|[k0 d0] items IH]; intros rows Hk; [reflexivity|].
  simpl in Hk. apply not_elem_of_cons in Hk as [Hne Hk]. simpl.
  rewrite IH by exact Hk. apply String.eqb_neq in Hne. now rewrite Hne.
Qed.

Lemma rows_after_present (items : list (string * nat)) (rows : string -> list nat)
  (k : string) (d : nat) :
  NoDup (map fst items) -> (k, d) ∈ items ->
  rows_after items rows k = raise_from d (rows k).
Proof.
  revert rows. induction items as [|[k0 d0] items IH]; intros rows Hnd Hin.
  - now apply elem_of_nil in Hin.
  - simpl in Hnd. apply NoDup_cons in Hnd as [Hk0 Hnd]. simpl.
    apply elem_of_cons in Hin as [[= -> ->]|Hin].
    + rewrite rows_after_absent by exact Hk0. now rewrite String.eqb_refl.
    + rewrite IH by assumption.
      destruct (String.eqb_spec k k0) as [->|_]; [|reflexivity].
      exfalso. apply Hk0. apply list_elem_of_fmap. now exists (k0, d).
Qed.

Lemma raise_from_zero (d : nat) : raise_from d (repeat 0 t_steps) = delayed_row d.
Proof. destruct d as [|[|[|d]]]; reflexivity. Qed.

(** The table the simulator returns, row by row. *)
Lemma sim_table_spec (vars : list string) (ti : PyDict.t nat) :
  NoDup vars -> NoDup (keys ti) -> (forall k, k ∈ keys ti -> k ∈ vars) ->
  sim_table vars ti
  = Ok (tabulate (fun v => match get ti v with
                           | Some d => delayed_row d
                           | None => repeat 0 t_steps
                           end) vars).
Proof.
  intros Hnd Hti Hsub. unfold sim_table, initial_table.
  rewrite of_entries_NoDup.
  2:{ rewrite map_map. simpl. now rewrite map_id. }
  change (map (fun var => (var, repeat 0 t_steps)) vars)
    with (tabulate (fun _ => repeat 0 t_steps) vars).
  rewrite sim_loop.
  - f_equal. apply tabulate_ext. intros v _.
    destruct (get ti v) as [d|] eqn:E.
    + rewrite (rows_after_present _ _ _ d); [apply raise_from_zero | exact Hti |].
      now apply get_Some_elem.
    + apply rows_after_absent. now apply get_None.
  - exact Hnd.
  - apply Forall_forall. intros [k d] Hin. apply Hsub.
    apply list_elem_of_fmap. now exists (k, d).
  - intros _. reflexivity.
Qed.

Lemma delayed_row_lookup (d t : nat) :
  t < t_steps -> delayed_row d !! t = Some (if Nat.ltb t d then 0 else 1).
Proof.
  unfold t_steps. intros Ht.
  destruct t as [|[|[|t]]]; [reflexivity | reflexivity | reflexivity | lia].
Qed.

Lemma delayed_row_late (d : nat) : t_steps <= d -> delayed_row d = repeat 0 t_steps.
Proof.
  unfold t_steps. intros Hd. destruct d as [|[|[|d]]]; [lia | lia | lia | reflexivity].
Qed.

(** ** The evaluation loop *)

Lemma delays_of_snoc (cs : list component) (c : component) :
  delays_of (cs ++ [c]) = set (delays_of cs) (output c) (delay c).
Proof. unfold delays_of. rewrite map_app. apply of_entries_snoc. Qed.

Lemma evaluate_components_inv (lib : library) (keys : list string) (cs : list component)
  (es0 : list logic_expr) (cs0 : list component) (st : list logic_expr * PyDict.t nat) :
  ofold (evaluate_component lib keys) cs (es0, delays_of cs0) = Ok st ->
  exists es, Forall2 (fun c e => bind_component lib keys c = Ok e) cs es
             /\ st = (es0 ++ es, delays_of (cs0 ++ cs)).
Proof.
  revert es0 cs0. induction cs as [|c cs IH]; intros es0 cs0 H; simpl in H.
  - injection H as <-. exists []. split; [constructor|]. now rewrite !app_nil_r.
  - apply obind_Ok in H as ([es1 ti1] & H1 & H2).
    unfold evaluate_component in H1. apply obind_Ok in H1 as (e & He & H1).
    injection H1 as <- <-. cbn [fst snd] in H2.
    rewrite <- delays_of_snoc in H2. apply IH in H2 as (es & HF & ->).
    exists (e :: es). split; [now constructor|].
    now rewrite <- !app_assoc.
Qed.

(** When the loops of lines 70-76 complete, [evaluated_exprs] holds the bound
    expression of every component in the order met and [temporal_info] the
    delay assigned last to each output. *)
Lemma evaluate_subcircuits_inv (lib : library) (keys : list string)
  (scs : PyDict.t (PyDict.t component))
  (es : list logic_expr) (ti : PyDict.t nat) :
  evaluate_subcircuits lib keys scs = Ok (es, ti) ->
  Forall2 (fun c e => bind_component lib keys c = Ok e) (all_components scs) es
  /\ ti = delays_of (all_components scs).
Proof.
  unfold evaluate_subcircuits. rewrite ofold_flat_map. intros H.
  apply (evaluate_components_inv lib keys _ [] []) in H as (es' & HF & [= -> ->]).
  split; [exact HF | reflexivity].
Qed.

Lemma delays_of_keys (cs : list component) (k : string) :
  k ∈ keys (delays_of cs) <-> k ∈ map output cs.
Proof. unfold delays_of. rewrite elem_keys_of_entries, map_map. reflexivity. Qed.

(** ** Temporal simulation *)

(** C3: when the evaluation loop has completed with the delay map [ti], the
    simulator returns a table with one row of [t_steps] = 3 entries per
    variable; the row of an output with delay [d] is 0 at every step before
    [d] and 1 from [d] on, hence non-decreasing, and all 0 when [d] is at least
    3; the row of a variable that no component has as output is all 0. *)
Theorem simulation_rows (lib : library) (keys vars : list string)
  (scs : PyDict.t (PyDict.t component)) (es : list logic_expr) (ti : PyDict.t nat) :
  Permutation vars (all_vars scs) ->
  evaluate_subcircuits lib keys scs = Ok (es, ti) ->
  exists tbl,
    sim_table vars ti = Ok tbl
    /\ PyDict.keys tbl = vars
    /\ (forall v d, get ti v = Some d ->
        exists row,
          get tbl v = Some row
          /\ length row = t_steps
          /\ (forall t, t < t_steps -> row !! t = Some (if Nat.ltb t d then 0 else 1))
          /\ (forall t1 t2 b1 b2, t1 <= t2 -> row !! t1 = Some b1 ->
                                  row !! t2 = Some b2 -> b1 <= b2)
          /\ (t_steps <= d -> row = repeat 0 t_steps))
    /\ (forall v, v ∈ vars -> v ∉ map output (all_components scs) ->
        get tbl v = Some (repeat 0 t_steps)).
Proof.
  intros Hperm Hev. apply evaluate_subcircuits_inv in Hev as [_ ->].
  assert (Hnd : NoDup vars) by (rewrite Hperm; apply NoDup_all_vars).
  assert (Hsub : forall k, k ∈ PyDict.keys (delays_of (all_components scs)) -> k ∈ vars).
  { intros k Hk. apply delays_of_keys in Hk.
    apply list_elem_of_fmap in Hk as (c & -> & Hc).
    rewrite Hperm. now apply output_in_all_vars. }
  eexists. split; [apply sim_table_spec; [exact Hnd | apply NoDup_keys_of_entries | exact Hsub]|].
  split; [unfold PyDict.keys, tabulate; rewrite map_map; apply map_id|].
  split.
  - intros v d Hv. exists (delayed_row d).
    assert (Hin : v ∈ vars).
    { apply Hsub. destruct (decide (v ∈ PyDict.keys (delays_of (all_components scs))))
        as [H|H]; [exact H|]. apply get_None in H. congruence. }
    split; [rewrite get_tabulate by exact Hin; now rewrite Hv|].
    split; [reflexivity|].
    split; [intros t Ht; now apply delayed_row_lookup|].
    split; [|apply delayed_row_late].
    intros t1 t2 b1 b2 Hle H1 H2.
    assert (Ht2 : t2 < t_steps) by (apply lookup_lt_Some in H2; exact H2).
    rewrite delayed_row_lookup in H1, H2 by lia.
    injection H1 as <-. injection H2 as <-.
    destruct (Nat.ltb_spec t1 d), (Nat.ltb_spec t2 d); lia.
  - intros v Hin Hout. rewrite get_tabulate by exact Hin.
    assert (H : get (delays_of (all_components scs)) v = None).
    { apply get_None. now rewrite delays_of_keys. }
    now rewrite H.
Qed.

(** C3 at the two-gate circuit: the loop completes there, so the rows are as
    stated. *)
Lemma simulation_rows_witness :
  exists tbl,
    sim_table ["x"; "z"; "y1"; "w"; "y2"] [("y1", 0); ("y2", 1)] = Ok tbl
    /\ PyDict.keys tbl = ["x"; "z"; "y1"; "w"; "y2"]
    /\ (forall v d, get [("y1", 0); ("y2", 1)] v = Some d ->
        exists row,
          get tbl v = Some row
          /\ length row = t_steps
          /\ (forall t, t < t_steps -> row !! t = Some (if Nat.ltb t d then 0 else 1))
          /\ (forall t1 t2 b1 b2, t1 <= t2 -> row !! t1 = Some b1 ->
                                  row !! t2 = Some b2 -> b1 <= b2)
          /\ (t_steps <= d -> row = repeat 0 t_steps))
    /\ (forall v, v ∈ ["x"; "z"; "y1"; "w"; "y2"] ->
        v ∉ map output (all_components (subcircuits two_gates)) ->
        get tbl v = Some (repeat 0 t_steps)).
Proof.
  apply (simulation_rows reference_library
           ["x"; "z"; "y1"; "w"; "y2"] ["x"; "z"; "y1"; "w"; "y2"]
           (subcircuits two_gates)
           [And [Symbol "x"; Symbol "z"]; Or [Symbol "w"; Symbol "y1"]]
           [("y1", 0); ("y2", 1)]).
  - vm_compute. apply Permutation_refl.
  - vm_compute. reflexivity.
Defined.

(** C10: when the loop has completed and [c] is the last component in the order
    met that has [output c] as its output, the delay map holds [delay c] under
    that name and the row of the variable in the table is the row of [delay c]:
    the delays of the components met before [c] with the same output do not
    enter it. *)
Theorem last_delay_wins (lib : library) (keys vars : list string)
  (scs : PyDict.t (PyDict.t component)) (es : list logic_expr) (ti : PyDict.t nat)
  (cs1 cs2 : list component) (c : component) :
  Permutation vars (all_vars scs) ->
  evaluate_subcircuits lib keys scs = Ok (es, ti) ->
  all_components scs = cs1 ++ c :: cs2 ->
  output c ∉ map output cs2 ->
  get ti (output c) = Some (delay c)
  /\ exists tbl,
       sim_table vars ti = Ok tbl
       /\ get tbl (output c) = Some (delayed_row (delay c)).
Proof.
  intros Hperm Hev Hcs Hlast. apply evaluate_subcircuits_inv in Hev as [_ ->].
  assert (Hget : get (delays_of (all_components scs)) (output c) = Some (delay c)).
  { rewrite Hcs. unfold delays_of. rewrite map_app. simpl.
    apply get_of_entries_last. now rewrite map_map. }
  split; [exact Hget|].
  assert (Hnd : NoDup vars) by (rewrite Hperm; apply NoDup_all_vars).
  assert (Hc : output c ∈ vars).
  { rewrite Hperm. apply output_in_all_vars. rewrite Hcs.
    apply elem_of_app. right. apply elem_of_cons. now left. }
  eexists. split.
  - apply sim_table_spec; [exact Hnd | apply NoDup_keys_of_entries |].
    intros k Hk. apply delays_of_keys in Hk.
    apply list_elem_of_fmap in Hk as (c' & -> & Hc').
    rewrite Hperm. now apply output_in_all_vars.
  - rewrite get_tabulate by exact Hc. now rewrite Hget.
Qed.

(** C10 at the circuit with two drivers of [y], delays 0 then 2: the row of
    [y] is that of delay 2. *)
Lemma last_delay_wins_witness :
  get [("y", 2)] (output driver_slow) = Some (delay driver_slow)
  /\ exists tbl,
       sim_table ["x"; "y"; "z"] [("y", 2)] = Ok tbl
       /\ get tbl (output driver_slow) = Some (delayed_row (delay driver_slow)).
Proof.
  apply (last_delay_wins reference_library
           ["x"; "y"; "z"] ["x"; "y"; "z"] (subcircuits two_drivers)
           [Not (Symbol "x"); Not (Symbol "z")] [("y", 2)]
           [driver_fast] [] driver_slow).
  - vm_compute. apply Permutation_refl.
  - vm_compute. reflexivity.
  - reflexivity.
  - apply not_elem_of_nil.
Defined.

(** ** Aggregation *)

Lemma repeated_name_keeps_last_aux (f f1 : form) (sc : string)
  (entries : list (string * component)) (f2 : form) :
  f = f1 ++ (sc, entries) :: f2 -> sc ∉ map fst f2 ->
  get (subcircuits f) sc = Some (components_dict entries)
  /\ (forall es1 n c es2,
        entries = es1 ++ (n, c) :: es2 -> n ∉ map fst es2 ->
        get (components_dict entries) n = Some c).
Proof.
  unfold subcircuits, components_dict. intros -> Hlast. split.
  - rewrite map_app. simpl. apply get_of_entries_last. now rewrite map_map.
  - intros es1 n c es2 -> Hn. now apply get_of_entries_last.
Qed.

(** C6, as the code has it: aggregation does not fail on a repeated name.
    The structure has one entry per distinct sub-circuit name and, inside a
    sub-circuit, one per distinct component name; the entry of a name holds
    what was entered last under it. *)
Theorem repeated_name_keeps_last (f : form) :
  NoDup (PyDict.keys (subcircuits f))
  /\ (forall sc, sc ∈ PyDict.keys (subcircuits f) <-> sc ∈ map fst f)
  /\ (forall f1 sc entries f2,
        f = f1 ++ (sc, entries) :: f2 -> sc ∉ map fst f2 ->
        get (subcircuits f) sc = Some (components_dict entries)
        /\ NoDup (PyDict.keys (components_dict entries))
        /\ (forall n, n ∈ PyDict.keys (components_dict entries) <-> n ∈ map fst entries)
        /\ (forall es1 n c es2,
              entries = es1 ++ (n, c) :: es2 -> n ∉ map fst es2 ->
              get (components_dict entries) n = Some c)).
Proof.
  unfold subcircuits, components_dict. split; [apply NoDup_keys_of_entries|].
  split.
  - intros sc. rewrite elem_keys_of_entries, map_map. reflexivity.
  - intros f1 sc entries f2 -> Hlast. split.
    + rewrite map_app. simpl. apply get_of_entries_last. now rewrite map_map.
    + split; [apply NoDup_keys_of_entries|].
      split; [intros n; apply elem_keys_of_entries|].
      intros es1 n c es2 -> Hn. now apply get_of_entries_last.
Qed.

(** C6 at the form with two components named [C11]: the sub-circuit holds the
    second one. *)
Lemma repeated_name_keeps_last_witness :
  get (subcircuits named_alike) "SC1"
  = Some (components_dict [("C11", driver_fast); ("C11", driver_slow)])
  /\ get (components_dict [("C11", driver_fast); ("C11", driver_slow)]) "C11"
     = Some driver_slow.
Proof.
  destruct (repeated_name_keeps_last named_alike) as (_ & _ & H).
  destruct (H [] "SC1" [("C11", driver_fast); ("C11", driver_slow)] [] eq_refl)
    as (H1 & _ & _ & H2); [apply not_elem_of_nil|].
  split; [exact H1|].
  apply (H2 [("C11", driver_fast)] "C11" driver_slow [] eq_refl), not_elem_of_nil.
Defined.

(** C6 as stated fails: the form with two components of the same name is
    aggregated into a sub-circuit of one component, and the analysis of it
    completes. *)
Lemma repeated_name_counterexample :
  has_duplicate_name named_alike = true
  /\ subcircuits named_alike = [("SC1", [("C11", driver_slow)])]
  /\ is_ok (analyse infix_str reference_library (all_vars (subcircuits named_alike))
              (subcircuits named_alike)) = true.
Proof. vm_compute. repeat split. Qed.

(** ** Composition *)

Lemma var_map_keys_Ok (symbols : list string -> outcome unit) (vars keys : list string) :
  var_map_keys symbols vars = Ok keys -> keys = vars /\ forallb plain_name vars = true.
Proof.
  unfold var_map_keys. destruct (forallb plain_name vars).
  - intros [= <-]. now split.
  - destruct (symbols vars); discriminate.
Qed.

Lemma analyse_inv (str_compound : logic_expr -> string) (lib : library)
  (vars : list string) (scs : PyDict.t (PyDict.t component)) (r : analysis) :
  analyse str_compound lib vars scs = Ok r ->
  exists es ti logic tbl,
    evaluate_subcircuits lib vars scs = Ok (es, ti)
    /\ sympy_And lib es = Ok logic
    /\ sim_table vars ti = Ok tbl
    /\ r = {| circuit_logic := logic; temporal_table := tbl;
              proof := proof_tree str_compound logic |}.
Proof.
  unfold analyse, compose. intros H.
  apply obind_Ok in H as (keys & Hkeys & H).
  apply var_map_keys_Ok in Hkeys as [-> _].
  apply obind_Ok in H as ([es ti] & Hev & H).
  apply obind_Ok in H as (logic & Hlogic & H).
  apply obind_Ok in H as (u1 & _ & H).
  apply obind_Ok in H as (tbl & Htbl & H).
  apply obind_Ok in H as (u2 & _ & H).
  apply obind_Ok in H as (u3 & _ & [= <-]).
  now exists es, ti, logic, tbl.
Qed.








(** ** Binding *)

(** C5 at the form's own default entries: whatever the order in which the
    variables are enumerated, the text handed to [eval] is not an expression
    (the capital [A] of [And] has been replaced too), and the analysis ends in
    [SyntaxError] with no bound expression. *)
Theorem default_formula_does_not_bind (str_compound : logic_expr -> string)
  (lib : library) (vars : list string) :
  Permutation vars (all_vars (subcircuits default_form)) ->
  analyse str_compound lib vars (subcircuits default_form) = Raise SyntaxError.
Proof.
  intros Hperm. symmetry in Hperm. apply permutations_Permutation in Hperm.
  vm_compute in Hperm.
  repeat (apply elem_of_cons in Hperm as [->|Hperm]; [vm_compute; reflexivity|]).
  now apply elem_of_nil in Hperm.
Qed.

Lemma default_formula_does_not_bind_witness :
  substitute ["A"; "B"; "Y11"] "And(A,B)" = "var_map['A']nd(var_map['A'],var_map['B'])"
  /\ analyse infix_str reference_library ["A"; "B"; "Y11"] (subcircuits default_form)
     = Raise SyntaxError.
Proof.
  split; [reflexivity|].
  apply (default_formula_does_not_bind infix_str reference_library ["A"; "B"; "Y11"]).
  vm_compute. apply Permutation_refl.
Defined.

(** ** The proof tree *)

Lemma logic_expr_induction (P : logic_expr -> Prop) :
  (forall name, P (Symbol name)) ->
  (forall args, Forall P args -> P (And args)) ->
  (forall args, Forall P args -> P (Or args)) ->
  (forall arg, P arg -> P (Not arg)) ->
  forall e, P e.
Proof.
  intros HS HA HO HN. fix IH 1. intros [name|args|args|arg].
  - apply HS.
  - apply HA. induction args as [|a args IHargs]; constructor; [apply IH | exact IHargs].
  - apply HO. induction args as [|a args IHargs]; constructor; [apply IH | exact IHargs].
  - apply HN, IH.
Qed.

Lemma number_from_app (c : nat) (l1 l2 : list logic_expr) :
  number_from c (l1 ++ l2) = number_from c l1 ++ number_from (c + length l1) l2.
Proof.
  revert c. induction l1 as [|e l1 IH]; intros c; simpl.
  - now rewrite Nat.add_0_r.
  - rewrite IH. do 3 f_equal. lia.
Qed.

Lemma map_fst_number_from (c : nat) (l : list logic_expr) :
  map fst (number_from c l) = seq c (length l).
Proof. revert c. induction l as [|e l IH]; intros c; simpl; [reflexivity | now rewrite IH]. Qed.

Lemma length_preorder (e : logic_expr) : length (preorder e) = size e.
Proof.
  induction e as [name|args IH|args IH|arg IH] using logic_expr_induction; simpl.
  - reflexivity.
  - f_equal. induction IH as [|a args Ha _ IHargs]; simpl; [reflexivity|].
    now rewrite length_app, Ha, IHargs.
  - f_equal. induction IH as [|a args Ha _ IHargs]; simpl; [reflexivity|].
    now rewrite length_app, Ha, IHargs.
  - now rewrite IH.
Qed.

Section BuilderFacts.

Variable str_compound : logic_expr -> string.

Local Abbreviation build := (build_proof_tree_clickable str_compound).

Lemma visit_spec (e : logic_expr) (parent : option string) (st : builder_state) :
  visit str_compound e parent st
  = {| counter := S (counter st);
       dot := {| nodes := nodes (dot st) ++ [node_of str_compound (counter st, e)];
                 edges := edges (dot st) ++ parent_edge parent (counter st) |};
       node_explanations := explain str_compound (node_explanations st) (counter st, e) |}.
Proof.
  unfold visit, add_edge_from, add_node, parent_edge. destruct parent as [p|]; simpl.
  - destruct (String.eqb p EmptyString); simpl; [now rewrite app_nil_r | reflexivity].
  - now rewrite app_nil_r.
Qed.

(** The loop over the operands, given the effect of the call on each. *)
Lemma build_children (args : list logic_expr) (p : nat) (st : builder_state) :
  Forall (fun a => forall parent st, build a parent st = extends str_compound a parent st) args ->
  fold_left (fun s arg => build arg (Some (node_id p)) s) args st
  = {| counter := counter st + list_sum (map size args);
       dot := {| nodes := nodes (dot st)
                          ++ map (node_of str_compound)
                               (number_from (counter st) (flat_map preorder args));
                 edges := edges (dot st)
                          ++ map named_edge
                               (children_edges subtree_edges p (counter st) args) |};
       node_explanations :=
         fold_left (explain str_compound)
                   (number_from (counter st) (flat_map preorder args))
                   (node_explanations st) |}.
Proof.
  intros HF. revert st. induction HF as [|a args Ha _ IH]; intros st.
  - destruct st as [c [ns es] ex]. simpl. now rewrite Nat.add_0_r, !app_nil_r.
  - cbn [fold_left]. rewrite Ha, IH. unfold extends. cbn [counter dot nodes edges node_explanations].
    cbn [map list_sum flat_map children_edges parent_edge].
    rewrite number_from_app, length_preorder, map_app, fold_left_app, <- !app_assoc.
    f_equal; [simpl; lia|]. f_equal. f_equal.
    change (String.eqb (node_id p) EmptyString) with false.
    rewrite map_app. reflexivity.
Qed.

(** The builder appends the nodes of the expression in pre-order, numbered
    from the counter, and the edges between them. *)
Lemma build_spec (e : logic_expr) :
  forall parent st, build e parent st = extends str_compound e parent st.
Proof.
  induction e as [name|args IH|args IH|arg IH] using logic_expr_induction;
    intros parent st.
  - cbn [build_proof_tree_clickable]. rewrite visit_spec. unfold extends. simpl.
    f_equal; [lia|]. now rewrite app_nil_r.
  - cbn [build_proof_tree_clickable]. rewrite visit_spec, (build_children _ _ _ IH).
    unfold extends. cbn [counter dot nodes edges node_explanations size preorder subtree_edges number_from map fold_left].
    rewrite <- !app_assoc. f_equal. lia.
  - cbn [build_proof_tree_clickable]. rewrite visit_spec, (build_children _ _ _ IH).
    unfold extends. cbn [counter dot nodes edges node_explanations size preorder subtree_edges number_from map fold_left].
    rewrite <- !app_assoc. f_equal. lia.
  - cbn [build_proof_tree_clickable]. rewrite visit_spec, IH.
    unfold extends. cbn [counter dot nodes edges node_explanations size preorder subtree_edges number_from map fold_left parent_edge].
    change (String.eqb (node_id (counter st)) EmptyString) with false. cbn iota.
    rewrite <- !app_assoc. f_equal. lia.
Qed.

End BuilderFacts.

Lemma number_from_range (c : nat) (l : list logic_expr) (i : nat) (x : logic_expr) :
  (i, x) ∈ number_from c l -> c <= i < c + length l.
Proof.
  revert c. induction l as [|e l IH]; intros c Hin; simpl in Hin.
  - now apply elem_of_nil in Hin.
  - apply elem_of_cons in Hin as [[= -> ->]|Hin]; simpl; [lia|].
    apply IH in Hin. lia.
Qed.

Lemma children_edges_sources (args : list logic_expr) (p next : nat) (pq : nat * nat) :
  Forall (fun a => forall c pq, pq ∈ subtree_edges c a -> c <= fst pq < c + size a) args ->
  pq ∈ children_edges subtree_edges p next args ->
  fst pq = p \/ next <= fst pq < next + list_sum (map size args).
Proof.
  intros HF. revert next. induction HF as [|a args Ha _ IH]; intros next Hin; simpl in Hin.
  - now apply elem_of_nil in Hin.
  - apply elem_of_cons in Hin as [->|Hin]; [now left|].
    apply elem_of_app in Hin as [Hin|Hin]; simpl.
    + apply Ha in Hin. right. lia.
    + apply IH in Hin as [Hin|Hin]; [now left | right; lia].
Qed.

(** The source of an edge inside a subtree is a position of that subtree. *)
Lemma subtree_edges_sources (e : logic_expr) :
  forall c pq, pq ∈ subtree_edges c e -> c <= fst pq < c + size e.
Proof.
  induction e as [name|args IH|args IH|arg IH] using logic_expr_induction;
    intros c pq Hin; simpl in Hin.
  - now apply elem_of_nil in Hin.
  - apply (children_edges_sources _ _ _ _ IH) in Hin. simpl. lia.
  - apply (children_edges_sources _ _ _ _ IH) in Hin. simpl. lia.
  - apply elem_of_cons in Hin as [->|Hin]; simpl; [lia|].
    apply IH in Hin. lia.
Qed.

Lemma filter_none_outside (l : list (nat * nat)) (i : nat) :
  (forall pq, pq ∈ l -> fst pq <> i) ->
  List.filter (fun pq => Nat.eqb (fst pq) i) l = [].
Proof.
  induction l as [|pq l IH]; intros H; simpl; [reflexivity|].
  destruct (Nat.eqb_spec (fst pq) i) as [Heq|_].
  - exfalso. apply (H pq); [apply elem_of_cons; now left | exact Heq].
  - apply IH. intros pq' Hin. apply H, elem_of_cons. now right.
Qed.

(** The edges leaving the node at position [p] whose operands [args] start at
    [next], when no operand's own position is [p]. *)
Lemma root_children (args : list logic_expr) (p next : nat) :
  p < next ->
  List.filter (fun pq => Nat.eqb (fst pq) p) (children_edges subtree_edges p next args)
  = map (pair p) (positions_from next args).
Proof.
  revert next. induction args as [|a args IH]; intros next Hlt; simpl; [reflexivity|].
  rewrite Nat.eqb_refl, List.filter_app, filter_none_outside.
  - simpl. f_equal. apply IH. lia.
  - intros pq Hin. apply subtree_edges_sources in Hin. lia.
Qed.

Lemma inner_children (args : list logic_expr) (p next i : nat) (x : logic_expr) :
  Forall (fun a => forall c i x, (i, x) ∈ number_from c (preorder a) ->
            List.filter (fun pq => Nat.eqb (fst pq) i) (subtree_edges c a)
            = map (pair i) (child_positions i x)) args ->
  p < next ->
  (i, x) ∈ number_from next (flat_map preorder args) ->
  List.filter (fun pq => Nat.eqb (fst pq) i) (children_edges subtree_edges p next args)
  = map (pair i) (child_positions i x).
Proof.
  intros HF. revert next. induction HF as [|a args Ha _ IH]; intros next Hlt Hin;
    simpl in Hin.
  - now apply elem_of_nil in Hin.
  - rewrite number_from_app, length_preorder in Hin. cbn [children_edges List.filter fst].
    apply elem_of_app in Hin as [Hin|Hin].
    + pose proof (number_from_range _ _ _ _ Hin) as Hr. rewrite length_preorder in Hr.
      replace (Nat.eqb p i) with false by (symmetry; apply Nat.eqb_neq; lia).
      rewrite List.filter_app, (Ha _ _ _ Hin), (filter_none_outside (children_edges _ _ _ _)).
      * apply app_nil_r.
      * intros pq Hpq.
        apply children_edges_sources in Hpq as [Hpq|Hpq]; [lia | lia |].
        apply Forall_forall. intros a' _. apply subtree_edges_sources.
    + pose proof (number_from_range _ _ _ _ Hin) as Hr.
      replace (Nat.eqb p i) with false by (symmetry; apply Nat.eqb_neq; lia).
      rewrite List.filter_app, filter_none_outside.
      * simpl. apply IH; [lia | exact Hin].
      * intros pq Hpq. apply subtree_edges_sources in Hpq. lia.
Qed.

(** In the edges of a tree, those leaving the node of a sub-expression lead to
    the positions of its operands, in their order. *)
Lemma node_children (e : logic_expr) :
  forall c i x, (i, x) ∈ number_from c (preorder e) ->
    List.filter (fun pq => Nat.eqb (fst pq) i) (subtree_edges c e)
    = map (pair i) (child_positions i x).
Proof.
  induction e as [name|args IH|args IH|arg IH] using logic_expr_induction;
    intros c i x Hin; cbn [preorder number_from] in Hin;
    apply elem_of_cons in Hin as [[= -> ->]|Hin].
  - reflexivity.
  - now apply elem_of_nil in Hin.
  - cbn [subtree_edges]. apply root_children. lia.
  - cbn [subtree_edges]. apply inner_children; [exact IH | lia | exact Hin].
  - cbn [subtree_edges]. apply root_children. lia.
  - cbn [subtree_edges]. apply inner_children; [exact IH | lia | exact Hin].
  - simpl. rewrite Nat.eqb_refl, filter_none_outside; [reflexivity|].
    intros pq Hpq. apply subtree_edges_sources in Hpq. lia.
  - pose proof (number_from_range _ _ _ _ Hin) as Hr.
    cbn [subtree_edges List.filter fst].
    replace (Nat.eqb c i) with false by (symmetry; apply Nat.eqb_neq; lia).
    now apply IH.
Qed.

Lemma node_id_eqb (p c : nat) : String.eqb (node_id p) (node_id c) = Nat.eqb p c.
Proof.
  destruct (Nat.eqb_spec p c) as [->|Hne]; [apply String.eqb_refl|].
  apply String.eqb_neq. unfold node_id. intros [= H].
  now apply pretty_nat_inj in H.
Qed.

Lemma filter_named_edges (l : list (nat * nat)) (c : nat) :
  List.filter (fun pc => String.eqb (fst pc) (node_id c)) (map named_edge l)
  = map named_edge (List.filter (fun pq => Nat.eqb (fst pq) c) l).
Proof.
  induction l as [|[p q] l IH]; [reflexivity|].
  cbn [map List.filter]. rewrite IH.
  change (fst (named_edge (p, q))) with (node_id p). rewrite node_id_eqb.
  cbn [fst]. destruct (Nat.eqb p c); reflexivity.
Qed.

(** Each operand of a node is found, at its position, among the numbered
    sub-expressions. *)
Lemma operands_numbered (args : list logic_expr) (c : nat) :
  Forall2 (fun pos arg => (pos, arg) ∈ number_from c (flat_map preorder args))
          (positions_from c args) args.
Proof.
  revert c. induction args as [|a args IH]; intros c;
    cbn [positions_from flat_map]; constructor.
  - rewrite number_from_app. apply elem_of_app. left.
    destruct a; simpl; apply elem_of_cons; now left.
  - eapply Forall2_impl; [apply (IH (c + size a))|].
    intros pos arg Hin. cbn beta in Hin |- *.
    rewrite number_from_app, length_preorder. apply elem_of_app. now right.
Qed.

Lemma preorder_operands (x : logic_expr) :
  preorder x = x :: flat_map preorder (operands x).
Proof. destruct x; simpl; [reflexivity | reflexivity | reflexivity | now rewrite app_nil_r]. Qed.

Lemma flat_numbered (args : list logic_expr) :
  Forall (fun a => forall c i x, (i, x) ∈ number_from c (preorder a) ->
            forall y, y ∈ number_from i (preorder x) -> y ∈ number_from c (preorder a))
         args ->
  forall c i x, (i, x) ∈ number_from c (flat_map preorder args) ->
    forall y, y ∈ number_from i (preorder x) ->
      y ∈ number_from c (flat_map preorder args).
Proof.
  induction 1 as [|a args Ha _ IH]; intros c i x Hin y Hy; cbn [flat_map] in Hin |- *.
  - now apply elem_of_nil in Hin.
  - rewrite number_from_app in Hin |- *. apply elem_of_app.
    apply elem_of_app in Hin as [Hin|Hin]; [left | right]; eauto.
Qed.

(** The numbered sub-expressions of a sub-expression are among those of the
    whole expression. *)
Lemma subtree_numbered (e : logic_expr) :
  forall c i x, (i, x) ∈ number_from c (preorder e) ->
    forall y, y ∈ number_from i (preorder x) -> y ∈ number_from c (preorder e).
Proof.
  induction e as [name|args IH|args IH|arg IH] using logic_expr_induction;
    intros c i x Hin y Hy.
  all: rewrite preorder_operands in Hin |- *; cbn [number_from] in Hin |- *.
  all: apply elem_of_cons in Hin as [[= -> ->]|Hin];
    [now rewrite preorder_operands in Hy|].
  all: apply elem_of_cons; right.
  - now apply elem_of_nil in Hin.
  - exact (flat_numbered _ IH _ _ _ Hin _ Hy).
  - exact (flat_numbered _ IH _ _ _ Hin _ Hy).
  - refine (flat_numbered [arg] _ _ _ _ Hin _ Hy). constructor; [exact IH | constructor].
Qed.

Section TreeFacts.

Variable str_compound : logic_expr -> string.

Lemma call_builder_spec (cell : nat) (ex : PyDict.t string) (e : logic_expr) :
  call_builder str_compound cell ex e
  = {| counter := cell + size e;
       dot := {| nodes := map (node_of str_compound) (number_from cell (preorder e));
                 edges := map named_edge (subtree_edges cell e) |};
       node_explanations :=
         fold_left (explain str_compound) (number_from cell (preorder e)) ex |}.
Proof. unfold call_builder. now rewrite build_spec. Qed.

Lemma node_names (c : nat) (l : list logic_expr) :
  map node_name (map (node_of str_compound) (number_from c l))
  = map node_id (seq c (length l)).
Proof.
  rewrite <- map_fst_number_from, !map_map. reflexivity.
Qed.

Lemma node_labels (c : nat) (l : list logic_expr) :
  map label (map (node_of str_compound) (number_from c l)) = map (str str_compound) l.
Proof.
  revert c. induction l as [|e l IH]; intros c; simpl; [reflexivity | now rewrite IH].
Qed.

(** The explanation recorded under the id of a numbered sub-expression. *)
Lemma explanation_recorded (l : list (nat * logic_expr)) (ex : PyDict.t string)
  (i : nat) (x : logic_expr) :
  NoDup (map fst l) -> (i, x) ∈ l ->
  get (fold_left (explain str_compound) l ex) (node_id i)
  = Some (describe_expr str_compound x).
Proof.
  induction l as [|[j y] l IH] using rev_ind; intros Hnd Hin.
  - now apply elem_of_nil in Hin.
  - rewrite fold_left_app. cbn [fold_left]. unfold explain at 1. cbn [fst snd].
    rewrite map_app in Hnd. apply NoDup_app in Hnd as (Hnd & Hdisj & _).
    apply elem_of_app in Hin as [Hin|Hin].
    + rewrite get_set_ne; [now apply IH|].
      intros Heq. apply (f_equal (fun s => String.eqb s (node_id i))) in Heq.
      rewrite node_id_eqb, String.eqb_refl in Heq. apply Nat.eqb_eq in Heq. subst j.
      apply (Hdisj i).
      * apply list_elem_of_fmap. now exists (i, x).
      * apply list_elem_of_singleton. reflexivity.
    + apply list_elem_of_singleton in Hin. injection Hin as <- <-.
      apply get_set_eq.
Qed.

End TreeFacts.

(** C4: the graph one run builds for an expression is determined node by node
    by the expression: the nodes are its sub-expressions in pre-order (a node
    before its operands, the operands from the left), the node met as number
    [i] has the id [n] followed by [i] and the text of its sub-expression as
    label, the counter ends at the number of nodes, and the edges are the
    parent-to-operand pairs of those positions.  Nothing else enters the
    result, so two runs on the same expression give the same ids, labels and
    edges. *)
Theorem proof_tree_numbered_in_preorder (str_compound : logic_expr -> string)
  (e : logic_expr) :
  counter (proof_tree str_compound e) = size e
  /\ nodes (dot (proof_tree str_compound e))
     = map (node_of str_compound) (number_from 0 (preorder e))
  /\ map node_name (nodes (dot (proof_tree str_compound e)))
     = map node_id (seq 0 (size e))
  /\ map label (nodes (dot (proof_tree str_compound e)))
     = map (str str_compound) (preorder e)
  /\ edges (dot (proof_tree str_compound e)) = map named_edge (subtree_edges 0 e).
Proof.
  unfold proof_tree. rewrite call_builder_spec. cbn [counter dot nodes edges].
  split; [reflexivity|]. split; [reflexivity|].
  split; [now rewrite node_names, length_preorder|].
  split; [apply node_labels | reflexivity].
Qed.

(** C9, as the code has it: the explanation of a symbol is [Primitive output: ]
    followed by its name, that of a negation [NOT of: ] followed by the text of
    the operand, that of a conjunction (disjunction) [AND combines: ]
    ([OR combines: ]) followed by the tuple of its operands.  In the tree built
    for [e], every sub-expression [x] met at position [i] has its node, with
    that explanation as tooltip and recorded under its id, and the edges
    leaving that node lead to one node per operand of [x], in their order: one
    for a negation, none for a symbol. *)
Theorem explanations_and_children (str_compound : logic_expr -> string)
  (e : logic_expr) :
  (forall name, describe_expr str_compound (Symbol name) = "Primitive output: " +:+ name)
  /\ (forall arg, describe_expr str_compound (Not arg)
                  = "NOT of: " +:+ str str_compound arg)
  /\ (forall args, describe_expr str_compound (And args)
                   = "AND combines: " +:+ str_tuple str_compound args)
  /\ (forall args, describe_expr str_compound (Or args)
                   = "OR combines: " +:+ str_tuple str_compound args)
  /\ (forall i x, (i, x) ∈ number_from 0 (preorder e) ->
        node_of str_compound (i, x) ∈ nodes (dot (proof_tree str_compound e))
        /\ get (node_explanations (proof_tree str_compound e)) (node_id i)
           = Some (describe_expr str_compound x)
        /\ children_of (dot (proof_tree str_compound e)) (node_id i)
           = map node_id (child_positions i x)
        /\ Forall2 (fun pos operand =>
                      node_of str_compound (pos, operand)
                      ∈ nodes (dot (proof_tree str_compound e)))
                   (child_positions i x) (operands x)).
Proof.
  repeat (split; [reflexivity|]).
  intros i x Hin. unfold proof_tree. rewrite call_builder_spec.
  cbn [dot nodes edges node_explanations]. split; [|split; [|split]].
  - apply list_elem_of_fmap. now exists (i, x).
  - apply explanation_recorded; [|exact Hin].
    rewrite map_fst_number_from. apply NoDup_seq.
  - unfold children_of. cbn [edges].
    rewrite filter_named_edges, (node_children e 0 i x Hin), !map_map. reflexivity.
  - eapply Forall2_impl; [apply (operands_numbered (operands x) (S i))|].
    intros pos operand Hpos. cbn beta in Hpos |- *.
    apply list_elem_of_fmap. exists (pos, operand). split; [reflexivity|].
    apply (subtree_numbered e 0 i x Hin).
    rewrite preorder_operands. cbn [number_from]. apply elem_of_cons. now right.
Qed.

(** C9 at [~x]: the root is a negation with the single child [n1], the node of
    [x]. *)
Lemma explanations_and_children_witness :
  describe_expr infix_str (Not (Symbol "x")) = "NOT of: x"
  /\ children_of (dot (proof_tree infix_str (Not (Symbol "x")))) (node_id 0) = ["n1"]
  /\ get (node_explanations (proof_tree infix_str (Not (Symbol "x")))) "n1"
     = Some "Primitive output: x".
Proof.
  destruct (explanations_and_children infix_str (Not (Symbol "x")))
    as (_ & HN & _ & _ & H).
  split; [apply HN|].
  destruct (H 0 (Not (Symbol "x"))) as (_ & _ & Hc & _);
    [apply elem_of_cons; now left|].
  split; [exact Hc|].
  destruct (H 1 (Symbol "x")) as (_ & Hx & _);
    [apply elem_of_cons; right; apply elem_of_cons; now left | exact Hx].
Defined.

(** C9 as stated fails: the texts the builder writes are not the ones of the
    claim. *)
Lemma explanation_texts_counterexample :
  describe_expr infix_str (Symbol "A") = "Primitive output: A"
  /\ describe_expr infix_str (Symbol "A") <> "primitive output: A"
  /\ describe_expr infix_str (Not (Symbol "A")) = "NOT of: A"
  /\ describe_expr infix_str (Not (Symbol "A")) <> "negation of: A".
Proof. repeat split; discriminate. Qed.

(** ** The counter shared between calls *)

(** The ids of a call start at the value the counter holds when it is made, and
    the call leaves the counter advanced by the number of nodes: a further call
    through the same function object, with [counter] left to its default,
    numbers its nodes from there and not from 0. *)
Theorem builder_numbers_from_counter (str_compound : logic_expr -> string)
  (cell : nat) (explanations : PyDict.t string) (e : logic_expr) :
  map node_name (nodes (dot (call_builder str_compound cell explanations e)))
  = map node_id (seq cell (size e))
  /\ counter (call_builder str_compound cell explanations e) = cell + size e.
Proof.
  rewrite call_builder_spec. cbn [counter dot nodes].
  split; [now rewrite node_names, length_preorder | reflexivity].
Qed.

(** ** The form always supplies a component *)

(** The widgets ask for at least one sub-circuit and at least one component in
    each, so the aggregated circuit has a component whatever the names are. *)
Theorem form_has_component (f : form) :
  f <> [] -> Forall (fun sc => snd sc <> []) f ->
  all_components (subcircuits f) <> [].
Proof.
  intros Hf Hall.
  destruct f as [|sc0 f0] using rev_ind; [congruence|]. clear IHf0 Hf.
  destruct sc0 as [name entries].
  apply Forall_app in Hall as [_ Hlast]. apply Forall_cons in Hlast as [Hentries _].
  cbn [snd] in Hentries.
  destruct entries as [|e0 entries0] using rev_ind; [congruence|]. clear IHentries0 Hentries.
  destruct e0 as [cname c].
  destruct (repeated_name_keeps_last_aux (f0 ++ [(name, entries0 ++ [(cname, c)])])
              f0 name (entries0 ++ [(cname, c)]) [] eq_refl) as [Hsc Hc];
    [apply not_elem_of_nil|].
  specialize (Hc entries0 cname c [] eq_refl (not_elem_of_nil _)).
  apply get_Some_elem in Hsc. apply get_Some_elem in Hc.
  intros Hempty.
  assert (Hin : c ∈ all_components (subcircuits (f0 ++ [(name, entries0 ++ [(cname, c)])]))).
  { unfold all_components. apply list_elem_of_In, in_flat_map.
    exists (components_dict (entries0 ++ [(cname, c)])). split.
    - apply list_elem_of_In. unfold PyDict.values. apply list_elem_of_fmap.
      eexists. split; [|exact Hsc]. reflexivity.
    - apply list_elem_of_In. unfold PyDict.values. apply list_elem_of_fmap.
      eexists. split; [|exact Hc]. reflexivity. }
  rewrite Hempty in Hin. now apply elem_of_nil in Hin.
Qed.

Lemma form_has_component_witness :
  all_components (subcircuits named_alike) <> [].
Proof.
  apply (form_has_component named_alike); [discriminate|].
  repeat constructor; discriminate.
Defined.

(** ** Dependence on the order of enumeration *)

(** The names are replaced one after the other in the order in which the set
    [all_vars] is enumerated, and a later replacement also rewrites the text an
    earlier one has put in.  With an input named [_] the same circuit binds
    when [_] is replaced before [Q] (the bound expression is what [Not]
    returns for the symbol [Q]) and ends in [SyntaxError], whatever the
    library does, when it is replaced after it. *)
Theorem binding_depends_on_enumeration :
  Permutation ["_"; "Q"; "Y"] (all_vars (subcircuits one_underscore))
  /\ Permutation ["Q"; "_"; "Y"] (all_vars (subcircuits one_underscore))
  /\ (forall lib, bind_component lib ["_"; "Q"; "Y"] gate_underscore
                  = sympy_Not lib [Symbol "Q"])
  /\ bind_component reference_library ["_"; "Q"; "Y"] gate_underscore
     = Ok (Not (Symbol "Q"))
  /\ substitute ["Q"; "_"; "Y"] "Not(Q)" = "Not(varvar_map['_']map['Q'])"
  /\ (forall lib, bind_component lib ["Q"; "_"; "Y"] gate_underscore = Raise SyntaxError)
  /\ is_ok (analyse infix_str reference_library ["_"; "Q"; "Y"]
              (subcircuits one_underscore)) = true
  /\ (forall str_compound lib,
        analyse str_compound lib ["Q"; "_"; "Y"] (subcircuits one_underscore)
        = Raise SyntaxError).
Proof.
  split; [vm_compute; apply perm_swap|].
  split; [vm_compute; apply Permutation_refl|].
  split.
  { intros lib. unfold bind_component.
    change (formula gate_underscore) with (Ok (A:=string) "Not(Q)"). cbn [obind].
    change (py_eval lib ["_"; "Q"; "Y"] (substitute ["_"; "Q"; "Y"] "Not(Q)"))
      with (call lib (VClass ClsNot) [VExpr (Symbol "Q")]).
    unfold call. cbn [exprs_of option_map].
    destruct (sympy_Not lib [Symbol "Q"]); reflexivity. }
  repeat split.
Qed.

(** ** Replacing a name in a text *)

Lemma append_nil_r (s : string) : s +:+ EmptyString = s.
Proof. induction s as [|c s IH]; [reflexivity|]. cbv [String.append] in *. fold String.append in *. now rewrite IH. Qed.

Lemma append_cons (c : ascii) (s t : string) : String c s +:+ t = String c (s +:+ t).
Proof. reflexivity. Qed.

Lemma append_assoc (s t u : string) : (s +:+ t) +:+ u = s +:+ (t +:+ u).
Proof.
  induction s as [|c s IH]; [reflexivity|].
  rewrite !append_cons. now rewrite IH.
Qed.

Lemma length_append (s t : string) :
  String.length (s +:+ t) = String.length s + String.length t.
Proof. induction s as [|c s IH]; [reflexivity|]. rewrite append_cons. simpl. now rewrite IH. Qed.

Lemma prefix_length (k s : string) :
  String.prefix k s = true -> String.length k <= String.length s.
Proof.
  revert k. induction s as [|b s IH]; intros [|a k]; simpl; try lia; try discriminate.
  destruct (ascii_dec a b); [|discriminate]. intros H. apply IH in H. lia.
Qed.

(** A match does not reach over a character that the name lacks. *)
Lemma prefix_before (c : ascii) (k s1 s2 : string) :
  has_char c k = false ->
  String.prefix k (s1 +:+ String c s2) = String.prefix k s1.
Proof.
  revert k. induction s1 as [|b s1 IH]; intros [|a k] Hc; try reflexivity.
  - cbn in Hc. apply orb_false_iff in Hc as [Hca _].
    change (EmptyString +:+ String c s2) with (String c s2).
    simpl. destruct (ascii_dec a c) as [->|_]; [|reflexivity].
    now rewrite Ascii.eqb_refl in Hca.
  - cbn in Hc. apply orb_false_iff in Hc as [_ Hk].
    rewrite append_cons. simpl. destruct (ascii_dec a b); [now apply IH | reflexivity].
Qed.

Lemma replace_from_skip_all (k new : string) (n : nat) (s : string) :
  String.length s <= n -> replace_from k new n s = EmptyString.
Proof.
  revert n. induction s as [|c s IH]; intros n Hn; [reflexivity|].
  simpl in Hn. destruct n as [|n]; [lia|]. simpl. apply IH. lia.
Qed.

(** The replacement goes through the text piece by piece, the pieces being
    separated by a character that the name lacks. *)
Lemma replace_from_before (c : ascii) (k new : string) (n : nat) (s1 s2 : string) :
  k <> EmptyString -> has_char c k = false -> n <= String.length s1 ->
  replace_from k new n (s1 +:+ String c s2)
  = replace_from k new n s1 +:+ String c (replace_from k new 0 s2).
Proof.
  intros Hk Hc. revert n. induction s1 as [|b s1 IH]; intros n Hn.
  - simpl in Hn. assert (n = 0) as -> by lia.
    change (EmptyString +:+ String c s2) with (String c s2).
    cbn [replace_from].
    replace (String.prefix k (String c s2)) with false; [reflexivity|].
    destruct k as [|a k]; [congruence|]. simpl.
    cbn in Hc. apply orb_false_iff in Hc as [Hca _].
    destruct (ascii_dec a c) as [->|_]; [|reflexivity].
    now rewrite Ascii.eqb_refl in Hca.
  - rewrite append_cons. cbn [replace_from]. destruct n as [|n].
    + assert (Hpre : String.prefix k (String b (s1 +:+ String c s2))
                     = String.prefix k (String b s1))
        by (rewrite <- append_cons; now apply prefix_before).
      rewrite Hpre. destruct (String.prefix k (String b s1)) eqn:Hp.
      * apply prefix_length in Hp. simpl in Hp.
        rewrite IH by lia. now rewrite append_assoc.
      * rewrite IH by lia. reflexivity.
    + simpl in Hn. apply IH. lia.
Qed.

Lemma replace_from_absent (k new s : string) :
  occurs k s = false -> replace_from k new 0 s = s.
Proof.
  induction s as [|c s IH]; intros H; [reflexivity|].
  cbn [occurs] in H. apply orb_false_iff in H as [Hp Ho].
  cbn [replace_from]. rewrite Hp. now rewrite IH.
Qed.

Lemma prefix_refl (k : string) : String.prefix k k = true.
Proof. induction k as [|a k IH]; [reflexivity|]. simpl. destruct (ascii_dec a a); [exact IH | congruence]. Qed.

Lemma replace_from_self (k new : string) :
  k <> EmptyString -> replace_from k new 0 k = new.
Proof.
  destruct k as [|a k]; [congruence|]. intros _.
  cbn [replace_from]. rewrite prefix_refl.
  rewrite replace_from_skip_all; [apply append_nil_r | simpl; lia].
Qed.

Lemma replace_nonempty (k new s : string) :
  k <> EmptyString -> replace k new s = replace_from k new 0 s.
Proof.
  intros Hk. unfold replace. destruct (String.eqb_spec k EmptyString); [congruence | reflexivity].
Qed.

Lemma plain_nonempty (k : string) : plain_name k = true -> k <> EmptyString.
Proof.
  unfold plain_name. intros H Hk. subst k. discriminate.
Qed.

(** A plain name has no character that is not a letter, a digit or an
    underscore. *)
Lemma plain_lacks (c : ascii) (k : string) :
  plain_name k = true -> is_ident_char c = false -> has_char c k = false.
Proof.
  unfold plain_name. intros H Hc. apply andb_true_iff in H as [_ H].
  induction k as [|a k IH]; [reflexivity|].
  cbn [string_forall] in H. apply andb_true_iff in H as [Ha H].
  unfold has_char in *. cbn [string_exists]. rewrite (IH H), orb_false_r.
  destruct (Ascii.eqb_spec c a) as [->|_]; [congruence | reflexivity].
Qed.

Lemma replace_sep (c : ascii) (k new s1 s2 : string) :
  plain_name k = true -> is_ident_char c = false ->
  replace_from k new 0 (s1 +:+ String c s2)
  = replace_from k new 0 s1 +:+ String c (replace_from k new 0 s2).
Proof.
  intros Hk Hc. apply replace_from_before; [now apply plain_nonempty | now apply plain_lacks | lia].
Qed.

Lemma replace_join (c : ascii) (k new : string) (f g : logic_expr -> string)
  (args : list logic_expr) (tail : string) :
  plain_name k = true -> is_ident_char c = false ->
  Forall (fun a => replace_from k new 0 (f a) = g a) args ->
  replace_from k new 0 (join "," (map f args) +:+ String c tail)
  = join "," (map g args) +:+ String c (replace_from k new 0 tail).
Proof.
  intros Hk Hc HF. induction HF as [|a args Ha HF IH].
  - cbn [map join]. now rewrite (replace_sep c k new EmptyString tail Hk Hc).
  - destruct args as [|b args].
    + cbn [map join]. now rewrite replace_sep, Ha.
    + change (join "," (map f (a :: b :: args)))
        with (f a +:+ String "," (join "," (map f (b :: args)))).
      change (join "," (map g (a :: b :: args)))
        with (g a +:+ String "," (join "," (map g (b :: args)))).
      rewrite !append_assoc, !append_cons, replace_sep, Ha, IH by (exact Hk || reflexivity).
      reflexivity.
Qed.

Lemma show_with_ext (pr pr' : string -> string) (e : logic_expr) :
  (forall x, x ∈ symbols_of e -> pr x = pr' x) -> show_with pr e = show_with pr' e.
Proof.
  induction e as [name|args IH|args IH|arg IH] using logic_expr_induction; intros H.
  - apply H. apply list_elem_of_singleton. reflexivity.
  - cbn [show_with]. apply (f_equal (fun l => "And(" +:+ join "," l +:+ ")")).
    apply map_ext_Forall.
    apply Forall_forall. intros a Ha. rewrite Forall_forall in IH. apply (IH a Ha).
    intros x Hx. apply H. cbn [symbols_of]. apply list_elem_of_In, in_flat_map.
    exists a. split; now apply list_elem_of_In.
  - cbn [show_with]. apply (f_equal (fun l => "Or(" +:+ join "," l +:+ ")")).
    apply map_ext_Forall.
    apply Forall_forall. intros a Ha. rewrite Forall_forall in IH. apply (IH a Ha).
    intros x Hx. apply H. cbn [symbols_of]. apply list_elem_of_In, in_flat_map.
    exists a. split; now apply list_elem_of_In.
  - cbn [show_with]. apply (f_equal (fun t => "Not(" +:+ t +:+ ")")). apply IH. exact H.
Qed.

(** Replacing a name that occurs in no operator name rewrites the variables of
    a formula and nothing else. *)
Lemma replace_show (k new : string) (pr pr' : string -> string) (e : logic_expr) :
  plain_name k = true ->
  occurs k "And" = false -> occurs k "Or" = false -> occurs k "Not" = false ->
  (forall x, x ∈ symbols_of e -> replace_from k new 0 (pr x) = pr' x) ->
  replace_from k new 0 (show_with pr e) = show_with pr' e.
Proof.
  intros Hk HA HO HN.
  induction e as [name|args IH|args IH|arg IH] using logic_expr_induction; intros H.
  - apply H. apply list_elem_of_singleton. reflexivity.
  - change (show_with pr (And args))
      with ("And" +:+ String "(" (join "," (map (show_with pr) args)
                                    +:+ String ")" EmptyString)).
    rewrite (replace_sep "(" k new "And" _ Hk eq_refl), (replace_from_absent _ _ _ HA).
    rewrite (replace_join ")" k new (show_with pr) (show_with pr') args EmptyString Hk eq_refl).
    + reflexivity.
    + apply Forall_forall. intros a Ha. rewrite Forall_forall in IH. apply (IH a Ha).
      intros x Hx. apply H. cbn [symbols_of]. apply list_elem_of_In, in_flat_map.
      exists a. split; now apply list_elem_of_In.
  - change (show_with pr (Or args))
      with ("Or" +:+ String "(" (join "," (map (show_with pr) args)
                                   +:+ String ")" EmptyString)).
    rewrite (replace_sep "(" k new "Or" _ Hk eq_refl), (replace_from_absent _ _ _ HO).
    rewrite (replace_join ")" k new (show_with pr) (show_with pr') args EmptyString Hk eq_refl).
    + reflexivity.
    + apply Forall_forall. intros a Ha. rewrite Forall_forall in IH. apply (IH a Ha).
      intros x Hx. apply H. cbn [symbols_of]. apply list_elem_of_In, in_flat_map.
      exists a. split; now apply list_elem_of_In.
  - change (show_with pr (Not arg))
      with ("Not" +:+ String "(" (show_with pr arg +:+ String ")" EmptyString)).
    rewrite (replace_sep "(" k new "Not" _ Hk eq_refl), (replace_from_absent _ _ _ HN).
    rewrite (replace_sep ")" k new _ EmptyString Hk eq_refl), (IH H).
    reflexivity.
Qed.

Lemma separated_key (keys : list string) (k : string) :
  separated keys = true -> k ∈ keys ->
  plain_name k = true
  /\ occurs k "And" = false /\ occurs k "Or" = false
  /\ occurs k "Not" = false /\ occurs k "var_map" = false
  /\ (forall k', k' ∈ keys -> k <> k' -> occurs k k' = false).
Proof.
  unfold separated. intros H Hk. apply andb_true_iff in H as [H _].
  rewrite forallb_forall in H. apply list_elem_of_In in Hk. specialize (H k Hk).
  apply andb_true_iff in H as [H Hpair]. apply andb_true_iff in H as [H Hv].
  apply andb_true_iff in H as [H HN]. apply andb_true_iff in H as [H HO].
  apply andb_true_iff in H as [Hp HA].
  apply negb_true_iff in Hv, HN, HO, HA.
  repeat (split; [assumption|]).
  intros k' Hk' Hne. rewrite forallb_forall in Hpair.
  apply list_elem_of_In in Hk'. specialize (Hpair k' Hk').
  apply orb_true_iff in Hpair as [Heq|Hn].
  - apply String.eqb_eq in Heq. congruence.
  - now apply negb_true_iff in Hn.
Qed.

Lemma separated_NoDup (keys : list string) : separated keys = true -> NoDup keys.
Proof.
  unfold separated. intros H. apply andb_true_iff in H as [_ H].
  now apply bool_decide_eq_true in H.
Qed.

Lemma written_in (done : list string) (x : string) :
  x ∈ done -> written done x = var_ref x.
Proof.
  intros H. unfold written.
  replace (existsb (String.eqb x) done) with true; [reflexivity|].
  symmetry. apply existsb_exists. exists x.
  split; [now apply list_elem_of_In | apply String.eqb_refl].
Qed.

Lemma written_out (done : list string) (x : string) :
  x ∉ done -> written done x = x.
Proof.
  intros H. unfold written. destruct (existsb (String.eqb x) done) eqn:E; [|reflexivity].
  apply existsb_exists in E as (y & Hy & Hxy). apply String.eqb_eq in Hxy. subst y.
  now apply list_elem_of_In in Hy.
Qed.

(** The lookup text of another name is left alone. *)
Lemma replace_var_ref (k new x : string) :
  plain_name k = true -> occurs k "var_map" = false -> occurs k x = false ->
  replace_from k new 0 (var_ref x) = var_ref x.
Proof.
  intros Hk Hv Hx.
  change (var_ref x)
    with ("var_map" +:+ String "[" (EmptyString +:+ String "'"
            (x +:+ String "'" (EmptyString +:+ String "]" EmptyString)))).
  rewrite (replace_sep "[" k new _ _ Hk eq_refl), (replace_sep "'" k new _ _ Hk eq_refl),
    (replace_sep "'" k new _ _ Hk eq_refl), (replace_sep "]" k new _ _ Hk eq_refl).
  now rewrite (replace_from_absent _ _ _ Hv), (replace_from_absent _ _ _ Hx).
Qed.

(** One turn of the loop of lines 73-74 on the text of a variable. *)
Lemma written_step (keys done : list string) (k x : string) :
  separated keys = true -> k ∈ keys -> x ∈ keys -> k ∉ done ->
  (forall y, y ∈ done -> y ∈ keys) ->
  replace_from k (var_ref k) 0 (written done x) = written (done ++ [k]) x.
Proof.
  intros Hsep Hk Hx Hkd Hdone.
  destruct (separated_key keys k Hsep Hk) as (Hp & _ & _ & _ & Hv & Hother).
  destruct (decide (x ∈ done)) as [Hxd|Hxd].
  - rewrite (written_in done x Hxd), written_in by (apply elem_of_app; now left).
    apply replace_var_ref; [exact Hp | exact Hv |].
    apply Hother; [exact Hx | congruence].
  - rewrite (written_out done x Hxd). destruct (String.eqb_spec k x) as [->|Hne].
    + rewrite written_in by (apply elem_of_app; right; apply list_elem_of_singleton; reflexivity).
      apply replace_from_self. now apply plain_nonempty.
    + rewrite written_out.
      * apply replace_from_absent. now apply Hother.
      * rewrite elem_of_app, list_elem_of_singleton. intros [H|H]; [contradiction | congruence].
Qed.

Lemma substitute_from (keys : list string) (e : logic_expr) :
  separated keys = true ->
  (forall x, x ∈ symbols_of e -> x ∈ keys) ->
  forall ks done, keys = done ++ ks ->
    substitute ks (show_with (written done) e) = show_with (written keys) e.
Proof.
  intros Hsep Hsym ks. induction ks as [|k ks IH]; intros done Hkeys.
  - rewrite app_nil_r in Hkeys. now subst done.
  - assert (Hk : k ∈ keys)
      by (rewrite Hkeys; apply elem_of_app; right; apply elem_of_cons; now left).
    assert (Hkd : k ∉ done).
    { pose proof (separated_NoDup keys Hsep) as Hnd. rewrite Hkeys in Hnd.
      apply NoDup_app in Hnd as (_ & Hdisj & _). intros Hin.
      apply (Hdisj k Hin). apply elem_of_cons. now left. }
    destruct (separated_key keys k Hsep Hk) as (Hp & HA & HO & HN & _ & _).
    unfold substitute. cbn [fold_left]. fold (substitute ks).
    rewrite (replace_nonempty _ _ _ (plain_nonempty k Hp)).
    rewrite (replace_show k (var_ref k) (written done) (written (done ++ [k])) e Hp HA HO HN).
    + apply IH. rewrite Hkeys, <- app_assoc. reflexivity.
    + intros x Hx. apply (written_step keys); try assumption; [now apply Hsym|].
      intros y Hy. rewrite Hkeys. apply elem_of_app. now left.
Qed.

(** When the declared names are separated, the text handed to [eval] is the
    formula with every variable replaced by its lookup and nothing else
    changed, in whatever order the names are taken. *)
Theorem substitute_separated (keys : list string) (e : logic_expr) :
  separated keys = true ->
  (forall x, x ∈ symbols_of e -> x ∈ keys) ->
  substitute keys (show e) = show_bound e.
Proof.
  intros Hsep Hsym. unfold show, show_bound.
  rewrite (show_with_ext (fun x => x) (written []) e) by reflexivity.
  rewrite (substitute_from keys e Hsep Hsym keys [] eq_refl).
  apply show_with_ext. intros x Hx. apply written_in. now apply Hsym.
Qed.

(** ** Names that are not replaced *)

Lemma declared_iff (keys : list string) (x : string) :
  existsb (String.eqb x) keys = true <-> x ∈ keys.
Proof.
  rewrite existsb_exists. split.
  - intros (y & Hy & Hxy). apply String.eqb_eq in Hxy. subst y. now apply list_elem_of_In.
  - intros H. exists x. split; [now apply list_elem_of_In | apply String.eqb_refl].
Qed.

Lemma undeclared_iff (keys : list string) (x : string) :
  existsb (String.eqb x) keys = false <-> x ∉ keys.
Proof.
  rewrite <- declared_iff. destruct (existsb (String.eqb x) keys); split; congruence.
Qed.

Lemma free_name_spec (x : string) :
  free_name x = true ->
  (exists c x', x = String c x' /\ is_ident_start c = true)
  /\ string_forall is_ident_char x = true
  /\ existsb (String.eqb x) keywords = false
  /\ lookup_name x = Raise (NameError x).
Proof.
  unfold free_name. intros H.
  apply andb_true_iff in H as [H Hlook]. apply andb_true_iff in H as [H Hkw].
  apply andb_true_iff in H as [Hstart Hall]. apply negb_true_iff in Hkw.
  split; [|split; [exact Hall|split; [exact Hkw|]]].
  - destruct x as [|c x']; [discriminate|]. now exists c, x'.
  - unfold lookup_name in Hlook |- *.
    repeat match goal with
           | H : context [if ?b then _ else _] |- _ => destruct b
           end; try discriminate; reflexivity.
Qed.

Lemma admissible_spec (keys : list string) (x : string) :
  admissible keys x = true ->
  x ∈ keys
  \/ ((x ∉ keys) /\ free_name x = true /\ forall k, k ∈ keys -> occurs k x = false).
Proof.
  unfold admissible. intros H.
  destruct (existsb (String.eqb x) keys) eqn:E.
  - left. now apply declared_iff.
  - right. cbn [orb] in H. apply andb_true_iff in H as [Hfree Hocc].
    split; [now apply undeclared_iff|]. split; [exact Hfree|].
    intros k Hk. rewrite forallb_forall in Hocc. apply list_elem_of_In in Hk.
    specialize (Hocc k Hk). now apply negb_true_iff in Hocc.
Qed.

Lemma admissible_symbols (keys : list string) (e : logic_expr) :
  forallb (admissible keys) (symbols_of e) = true ->
  forall x, x ∈ symbols_of e ->
    x ∈ keys
    \/ ((x ∉ keys) /\ free_name x = true /\ forall k, k ∈ keys -> occurs k x = false).
Proof.
  intros H x Hx. rewrite forallb_forall in H. apply admissible_spec, H.
  now apply list_elem_of_In.
Qed.

(** The loop of lines 73-74 rewrites the declared names of a formula and
    leaves alone a name in which none of them occurs. *)
Lemma substitute_within (keys : list string) (e : logic_expr) :
  separated keys = true ->
  (forall x, x ∈ symbols_of e -> x ∉ keys -> forall k, k ∈ keys -> occurs k x = false) ->
  forall ks done, keys = done ++ ks ->
    substitute ks (show_with (written done) e) = show_with (written keys) e.
Proof.
  intros Hsep Hfree ks. induction ks as [|k ks IH]; intros done Hkeys.
  - rewrite app_nil_r in Hkeys. now subst done.
  - assert (Hk : k ∈ keys)
      by (rewrite Hkeys; apply elem_of_app; right; apply elem_of_cons; now left).
    assert (Hkd : k ∉ done).
    { pose proof (separated_NoDup keys Hsep) as Hnd. rewrite Hkeys in Hnd.
      apply NoDup_app in Hnd as (_ & Hdisj & _). intros Hin.
      apply (Hdisj k Hin). apply elem_of_cons. now left. }
    destruct (separated_key keys k Hsep Hk) as (Hp & HA & HO & HN & _ & _).
    unfold substitute. cbn [fold_left]. fold (substitute ks).
    rewrite (replace_nonempty _ _ _ (plain_nonempty k Hp)).
    rewrite (replace_show k (var_ref k) (written done) (written (done ++ [k])) e Hp HA HO HN).
    + apply IH. rewrite Hkeys, <- app_assoc. reflexivity.
    + intros x Hx. destruct (decide (x ∈ keys)) as [Hxk|Hxk].
      * apply (written_step keys); try assumption.
        intros y Hy. rewrite Hkeys. apply elem_of_app. now left.
      * assert (Hxd : x ∉ done).
        { intros H. apply Hxk. rewrite Hkeys. apply elem_of_app. now left. }
        assert (Hxd' : x ∉ done ++ [k]).
        { rewrite elem_of_app, list_elem_of_singleton.
          intros [H|H]; [contradiction | subst x; contradiction]. }
        rewrite (written_out done x Hxd), (written_out _ x Hxd').
        apply replace_from_absent. now apply (Hfree x Hx Hxk).
Qed.

(** ** Reading the text back *)

Lemma ident_char_literal (c : ascii) : is_ident_char c = true -> literal_char c = true.
Proof.
  destruct c as [[] [] [] [] [] [] [] []]; intros H; try reflexivity; discriminate H.
Qed.

Lemma plain_literal (x : string) :
  plain_name x = true -> string_forall literal_char x = true.
Proof.
  unfold plain_name. intros H. apply andb_true_iff in H as [_ H].
  induction x as [|c x IH]; [reflexivity|].
  cbn [string_forall] in H |- *. apply andb_true_iff in H as [Hc H].
  now rewrite (ident_char_literal c Hc), IH.
Qed.

Lemma literal_not_quote (c : ascii) : literal_char c = true -> Ascii.eqb c "'" = false.
Proof.
  unfold literal_char. intros H. apply andb_true_iff in H as [H _].
  apply andb_true_iff in H as [_ H]. now apply negb_true_iff in H.
Qed.

(** The characters of a plain name inside quotes are read as one literal. *)
Lemma lex_literal (x acc rest : string) :
  string_forall literal_char x = true ->
  lex (InStr acc) (x +:+ String "'" rest)
  = option_map (cons (TStr (acc +:+ x))) (lex Idle rest).
Proof.
  revert acc. induction x as [|c x IH]; intros acc H.
  - rewrite append_nil_r. reflexivity.
  - cbn [string_forall] in H. apply andb_true_iff in H as [Hc H].
    rewrite append_cons. cbn [lex]. rewrite (literal_not_quote c Hc), Hc, (IH _ H).
    unfold snoc. now rewrite append_assoc.
Qed.

Ltac lex_compute :=
  cbv [String.append]; simpl;
  match goal with
  | |- context [lex ?m ?z] => destruct (lex m z)
  end; reflexivity.

Lemma lex_open_and (z : string) :
  lex Idle ("And(" +:+ z) = option_map (fun r => TName "And" :: TLPar :: r) (lex Idle z).
Proof. lex_compute. Qed.

Lemma lex_open_or (z : string) :
  lex Idle ("Or(" +:+ z) = option_map (fun r => TName "Or" :: TLPar :: r) (lex Idle z).
Proof. lex_compute. Qed.

Lemma lex_open_not (z : string) :
  lex Idle ("Not(" +:+ z) = option_map (fun r => TName "Not" :: TLPar :: r) (lex Idle z).
Proof. lex_compute. Qed.

Lemma lex_open_var_map (z : string) :
  lex Idle ("var_map['" +:+ z)
  = option_map (fun r => TName "var_map" :: TLBrk :: r) (lex (InStr EmptyString) z).
Proof. lex_compute. Qed.

Lemma lex_close_bracket (z : string) :
  lex Idle (String "]" z) = option_map (cons TRBrk) (lex Idle z).
Proof. lex_compute. Qed.

Lemma lex_close_paren (z : string) :
  lex Idle (String ")" z) = option_map (cons TRPar) (lex Idle z).
Proof. lex_compute. Qed.

Lemma lex_comma (z : string) :
  lex Idle (String "," z) = option_map (cons TComma) (lex Idle z).
Proof. lex_compute. Qed.

Lemma lex_var_ref (x rest : string) :
  plain_name x = true ->
  lex Idle (var_ref x +:+ rest)
  = option_map (app [TName "var_map"; TLBrk; TStr x; TRBrk]) (lex Idle rest).
Proof.
  intros Hx. unfold var_ref. rewrite !append_assoc, lex_open_var_map.
  change ("']" +:+ rest) with (String "'" (String "]" rest)).
  rewrite (lex_literal x EmptyString _ (plain_literal x Hx)), lex_close_bracket.
  destruct (lex Idle rest); reflexivity.
Qed.

(** A name that has begun ends where a comma, a closing parenthesis or the
    end of the text follows. *)
Lemma lex_in_name (x acc rest : string) :
  string_forall is_ident_char x = true ->
  existsb (String.eqb (acc +:+ x)) keywords = false ->
  closes rest = true ->
  lex (InName acc) (x +:+ rest) = option_map (cons (TName (acc +:+ x))) (lex Idle rest).
Proof.
  revert acc. induction x as [|c x IH]; intros acc Hx Hkw Hrest.
  - rewrite append_nil_r in *. change (EmptyString +:+ rest) with rest.
    assert (Hclose : close_name acc = Some (TName acc))
      by (unfold close_name; now rewrite Hkw).
    destruct rest as [|c r].
    + cbn [lex]. now rewrite Hclose.
    + cbn [closes] in Hrest. apply orb_true_iff in Hrest as [Hc|Hc];
        apply Ascii.eqb_eq in Hc; subst c.
      * rewrite lex_comma. cbn [lex].
        change (is_ident_char ",") with false. change (Ascii.eqb "," "'") with false.
        change (lex_start ",") with (Some ([TComma], Idle)).
        cbv iota beta. rewrite Hclose. destruct (lex Idle r); reflexivity.
      * rewrite lex_close_paren. cbn [lex].
        change (is_ident_char ")") with false. change (Ascii.eqb ")" "'") with false.
        change (lex_start ")") with (Some ([TRPar], Idle)).
        cbv iota beta. rewrite Hclose. destruct (lex Idle r); reflexivity.
  - cbn [string_forall] in Hx. apply andb_true_iff in Hx as [Hc Hx].
    rewrite append_cons. cbn [lex]. rewrite Hc.
    assert (Hacc : snoc acc c +:+ x = acc +:+ String c x)
      by (unfold snoc; now rewrite append_assoc).
    rewrite (IH (snoc acc c) Hx).
    + now rewrite Hacc.
    + now rewrite Hacc.
    + exact Hrest.
Qed.

Lemma lex_free_name (x rest : string) :
  free_name x = true -> closes rest = true ->
  lex Idle (x +:+ rest) = option_map (app [TName x]) (lex Idle rest).
Proof.
  intros Hfree Hrest.
  destruct (free_name_spec x Hfree) as ((c & x' & -> & Hstart) & Hall & Hkw & _).
  cbn [string_forall] in Hall. apply andb_true_iff in Hall as [_ Hall].
  rewrite append_cons. cbn [lex]. unfold lex_start. rewrite Hstart.
  rewrite (lex_in_name x' (String c EmptyString) rest Hall Hkw Hrest).
  change (String c EmptyString +:+ x') with (String c x').
  destruct (lex Idle rest); reflexivity.
Qed.

Lemma lex_arguments (sh : logic_expr -> string) (tk : logic_expr -> list token)
  (args : list logic_expr) :
  Forall (fun a => forall rest, closes rest = true ->
            lex Idle (sh a +:+ rest) = option_map (app (tk a)) (lex Idle rest))
         args ->
  forall rest,
    lex Idle (join "," (map sh args) +:+ String ")" rest)
    = option_map (app (join_tokens (map tk args) ++ [TRPar])) (lex Idle rest).
Proof.
  induction 1 as [|a args Ha HF IH]; intros rest.
  - change (join "," (map sh []) +:+ String ")" rest) with (String ")" rest).
    rewrite lex_close_paren. destruct (lex Idle rest); reflexivity.
  - destruct args as [|b args].
    + cbn [map join join_tokens]. rewrite (Ha (String ")" rest) eq_refl), lex_close_paren.
      destruct (lex Idle rest); [|reflexivity]. cbn [option_map]. now rewrite <- app_assoc.
    + change (join "," (map sh (a :: b :: args)))
        with (sh a +:+ String "," (join "," (map sh (b :: args)))).
      rewrite append_assoc, append_cons,
        (Ha (String "," (join "," (map sh (b :: args)) +:+ String ")" rest)) eq_refl),
        lex_comma, IH.
      destruct (lex Idle rest); [|reflexivity].
      cbn [option_map map join_tokens]. f_equal. rewrite <- !app_assoc. reflexivity.
Qed.

Lemma symbols_of_argument (args : list logic_expr) (a : logic_expr) (x : string) :
  a ∈ args -> x ∈ symbols_of a -> x ∈ flat_map symbols_of args.
Proof.
  intros Ha Hx. apply list_elem_of_In, in_flat_map. exists a.
  split; now apply list_elem_of_In.
Qed.

(** The lexer reads the text of a formula after the replacement as its
    tokens. *)
Lemma lex_written (keys : list string) (e : logic_expr) :
  (forall x, x ∈ symbols_of e ->
     if existsb (String.eqb x) keys then plain_name x = true else free_name x = true) ->
  forall rest, closes rest = true ->
    lex Idle (show_with (written keys) e +:+ rest)
    = option_map (app (toks keys e)) (lex Idle rest).
Proof.
  induction e as [name|args IH|args IH|arg IH] using logic_expr_induction;
    intros Hsym rest Hrest.
  - specialize (Hsym name ltac:(apply list_elem_of_singleton; reflexivity)).
    cbn [show_with toks]. unfold written.
    destruct (existsb (String.eqb name) keys).
    + now apply lex_var_ref.
    + now apply lex_free_name.
  - change (show_with (written keys) (And args) +:+ rest)
      with (("And(" +:+ join "," (map (show_with (written keys)) args) +:+ ")") +:+ rest).
    rewrite !append_assoc, lex_open_and.
    change (")" +:+ rest) with (String ")" rest).
    rewrite (lex_arguments (show_with (written keys)) (toks keys)).
    + destruct (lex Idle rest); reflexivity.
    + apply Forall_forall. intros a Ha. rewrite Forall_forall in IH. apply (IH a Ha).
      intros x Hx. apply Hsym. now apply (symbols_of_argument args a).
  - change (show_with (written keys) (Or args) +:+ rest)
      with (("Or(" +:+ join "," (map (show_with (written keys)) args) +:+ ")") +:+ rest).
    rewrite !append_assoc, lex_open_or.
    change (")" +:+ rest) with (String ")" rest).
    rewrite (lex_arguments (show_with (written keys)) (toks keys)).
    + destruct (lex Idle rest); reflexivity.
    + apply Forall_forall. intros a Ha. rewrite Forall_forall in IH. apply (IH a Ha).
      intros x Hx. apply Hsym. now apply (symbols_of_argument args a).
  - change (show_with (written keys) (Not arg) +:+ rest)
      with (("Not(" +:+ join "," (map (show_with (written keys)) [arg]) +:+ ")") +:+ rest).
    rewrite !append_assoc, lex_open_not.
    change (")" +:+ rest) with (String ")" rest).
    rewrite (lex_arguments (show_with (written keys)) (toks keys)).
    + destruct (lex Idle rest); reflexivity.
    + constructor; [|constructor]. intros rest' Hrest'. now apply IH.
Qed.

Lemma open_bracket_ok (fr : frame) (stk : list frame) :
  length stk < max_nesting -> open_bracket fr stk = Ok (fr :: stk, None).
Proof.
  intros H. unfold open_bracket. apply Nat.ltb_lt in H. now rewrite H.
Qed.

Lemma parse_arguments (keys : list string) (args : list logic_expr) (f : ast)
  (stk : list frame) :
  Forall (fun a => forall stk rest,
            length stk + depth a <= max_nesting ->
            parse_from (stk, None) (toks keys a ++ rest)
            = parse_from (stk, Some (ast_of keys a)) rest)
         args ->
  S (length stk) + list_max (map depth args) <= max_nesting ->
  forall acc rest,
    parse_from (FCall f acc :: stk, None)
               (join_tokens (map (toks keys) args) ++ TRPar :: rest)
    = parse_from (stk, Some (ACall f (acc ++ map (ast_of keys) args))) rest.
Proof.
  induction 1 as [|a args Ha HF IH]; intros Hd acc rest.
  - cbn. now rewrite app_nil_r.
  - change (list_max (map depth (a :: args)))
      with (Nat.max (depth a) (list_max (map depth args))) in Hd.
    assert (Hda : length (FCall f acc :: stk) + depth a <= max_nesting)
      by (cbn [length]; lia).
    destruct args as [|b args].
    + cbn [map join_tokens]. rewrite (Ha _ _ Hda). reflexivity.
    + change (join_tokens (map (toks keys) (a :: b :: args)))
        with (toks keys a ++ TComma :: join_tokens (map (toks keys) (b :: args))).
      rewrite <- app_assoc. rewrite (Ha _ _ Hda).
      change ((TComma :: join_tokens (map (toks keys) (b :: args))) ++ TRPar :: rest)
        with (TComma :: (join_tokens (map (toks keys) (b :: args)) ++ TRPar :: rest)).
      cbn [parse_from parse_step obind].
      rewrite IH by lia. now rewrite <- app_assoc.
Qed.

(** The parser reads the tokens of a formula as its Python expression. *)
Lemma parse_toks (keys : list string) (e : logic_expr) :
  forall stk rest,
    length stk + depth e <= max_nesting ->
    parse_from (stk, None) (toks keys e ++ rest)
    = parse_from (stk, Some (ast_of keys e)) rest.
Proof.
  induction e as [name|args IH|args IH|arg IH] using logic_expr_induction;
    intros stk rest Hd.
  - cbn [depth] in Hd. cbn [toks ast_of].
    destruct (existsb (String.eqb name) keys).
    + cbn [app parse_from parse_step obind].
      rewrite open_bracket_ok by lia. reflexivity.
    + reflexivity.
  - cbn [depth] in Hd. cbn [toks ast_of app parse_from parse_step obind].
    rewrite open_bracket_ok by lia. cbn [obind].
    rewrite <- app_assoc. apply (parse_arguments keys args _ stk IH). lia.
  - cbn [depth] in Hd. cbn [toks ast_of app parse_from parse_step obind].
    rewrite open_bracket_ok by lia. cbn [obind].
    rewrite <- app_assoc. apply (parse_arguments keys args _ stk IH). lia.
  - cbn [depth] in Hd. cbn [toks ast_of app parse_from parse_step obind].
    rewrite open_bracket_ok by lia. cbn [obind].
    rewrite <- app_assoc.
    apply (parse_arguments keys [arg] _ stk); [constructor; [exact IH | constructor]|].
    change (list_max (map depth [arg])) with (Nat.max (depth arg) 0). lia.
Qed.

Lemma exprs_of_values (es : list logic_expr) : exprs_of (map VExpr es) = Some es.
Proof. induction es as [|e es IH]; [reflexivity|]. cbn. now rewrite IH. Qed.

(** ** Performing the calls of a formula *)

Lemma perform_each_all (lib : library) (keys : list string) (l : list logic_expr) :
  (fix perform_each (l : list logic_expr) : outcome (list logic_expr) :=
     match l with
     | [] => Ok []
     | a :: l' =>
         let* v := perform lib keys a in
         let* vs := perform_each l' in
         Ok (v :: vs)
     end) l = perform_all lib keys l.
Proof. induction l as [|a l IH]; [reflexivity|]. cbn [perform_all]. now rewrite IH. Qed.

Lemma perform_And (lib : library) (keys : list string) (args : list logic_expr) :
  perform lib keys (And args) = let* vs := perform_all lib keys args in sympy_And lib vs.
Proof. cbn [perform]. now rewrite perform_each_all. Qed.

Lemma perform_Or (lib : library) (keys : list string) (args : list logic_expr) :
  perform lib keys (Or args) = let* vs := perform_all lib keys args in sympy_Or lib vs.
Proof. cbn [perform]. now rewrite perform_each_all. Qed.

(** Evaluating the Python expression of a formula makes the calls the formula
    writes. *)
Lemma eval_ast_written (lib : library) (keys : list string) (e : logic_expr) :
  (forall x, x ∈ symbols_of e -> existsb (String.eqb x) keys = false ->
             lookup_name x = Raise (NameError x)) ->
  eval_ast lib keys (ast_of keys e) = outcome_map VExpr (perform lib keys e).
Proof.
  assert (Hargs : forall args,
    Forall (fun a => (forall x, x ∈ symbols_of a -> existsb (String.eqb x) keys = false ->
                                lookup_name x = Raise (NameError x)) ->
                     eval_ast lib keys (ast_of keys a)
                     = outcome_map VExpr (perform lib keys a)) args ->
    (forall x, x ∈ flat_map symbols_of args -> existsb (String.eqb x) keys = false ->
               lookup_name x = Raise (NameError x)) ->
    (fix eval_args (l : list ast) : outcome (list pyval) :=
       match l with
       | [] => Ok []
       | x :: l' =>
           let* vx := eval_ast lib keys x in
           let* vl := eval_args l' in
           Ok (vx :: vl)
       end) (map (ast_of keys) args)
    = outcome_map (map VExpr) (perform_all lib keys args)).
  { induction 1 as [|a args Ha HF IH]; intros Hsym; [reflexivity|].
    cbn [map perform_all]. rewrite Ha.
    - destruct (perform lib keys a) as [v| |]; [|reflexivity|reflexivity].
      cbn [outcome_map obind]. rewrite IH.
      + destruct (perform_all lib keys args); reflexivity.
      + intros x Hx. apply Hsym. cbn [flat_map]. apply elem_of_app. now right.
    - intros x Hx. apply Hsym. cbn [flat_map]. apply elem_of_app. now left. }
  induction e as [name|args IH|args IH|arg IH] using logic_expr_induction; intros Hsym.
  - cbn [ast_of perform].
    destruct (existsb (String.eqb name) keys) eqn:E.
    + cbn [eval_ast]. change (lookup_name "var_map") with (Ok VVarMap).
      cbn [obind getitem]. now rewrite E.
    + cbn [eval_ast outcome_map obind]. apply Hsym; [|exact E].
      apply list_elem_of_singleton. reflexivity.
  - rewrite perform_And. cbn [ast_of eval_ast].
    change (lookup_name "And") with (Ok (VClass ClsAnd)).
    cbn [obind]. rewrite (Hargs args IH Hsym).
    destruct (perform_all lib keys args) as [vs| |]; [|reflexivity|reflexivity].
    cbn [outcome_map obind]. unfold call. rewrite exprs_of_values.
    destruct (sympy_And lib vs); reflexivity.
  - rewrite perform_Or. cbn [ast_of eval_ast].
    change (lookup_name "Or") with (Ok (VClass ClsOr)).
    cbn [obind]. rewrite (Hargs args IH Hsym).
    destruct (perform_all lib keys args) as [vs| |]; [|reflexivity|reflexivity].
    cbn [outcome_map obind]. unfold call. rewrite exprs_of_values.
    destruct (sympy_Or lib vs); reflexivity.
  - cbn [ast_of eval_ast perform]. change (lookup_name "Not") with (Ok (VClass ClsNot)).
    cbn [obind]. rewrite (IH Hsym).
    destruct (perform lib keys arg) as [v| |]; [|reflexivity|reflexivity].
    cbn [outcome_map obind]. unfold call. cbn [exprs_of option_map].
    destruct (sympy_Not lib [v]); reflexivity.
Qed.

Lemma symbols_checked (keys : list string) (e : logic_expr) :
  forallb (fun x => existsb (String.eqb x) keys) (symbols_of e) = true ->
  forall x, x ∈ symbols_of e -> x ∈ keys.
Proof.
  intros H x Hx. rewrite forallb_forall in H. apply list_elem_of_In in Hx.
  specialize (H x Hx). now apply declared_iff.
Qed.

Lemma substitute_separated_witness :
  substitute ["x"; "z"; "y1"] (show (And [Symbol "x"; Not (Symbol "z")]))
  = show_bound (And [Symbol "x"; Not (Symbol "z")]).
Proof.
  apply (substitute_separated ["x"; "z"; "y1"] (And [Symbol "x"; Not (Symbol "z")])).
  - vm_compute. reflexivity.
  - apply symbols_checked. vm_compute. reflexivity.
Defined.

(** ** Binding a formula over separated names *)

Lemma eval_of_shown (lib : library) (keys : list string) (e : logic_expr) :
  separated keys = true ->
  forallb (admissible keys) (symbols_of e) = true ->
  depth e <= max_nesting ->
  py_eval lib keys (substitute keys (show e)) = outcome_map VExpr (perform lib keys e).
Proof.
  intros Hsep Hadm Hd.
  pose proof (admissible_symbols keys e Hadm) as Hsym.
  assert (Hsub : substitute keys (show e) = show_with (written keys) e).
  { unfold show.
    rewrite (show_with_ext (fun x => x) (written []) e) by reflexivity.
    apply (substitute_within keys e Hsep); [|reflexivity].
    intros x Hx Hxk. destruct (Hsym x Hx) as [H|(_ & _ & H)]; [contradiction | exact H]. }
  rewrite Hsub. unfold py_eval.
  rewrite <- (append_nil_r (show_with (written keys) e)), lex_written.
  - change (lex Idle EmptyString) with (Some (@nil token)). cbn [option_map].
    unfold parse. rewrite (parse_toks keys e [] [] ltac:(cbn [length]; lia)).
    cbn [parse_from obind]. apply eval_ast_written.
    intros x Hx Hxk. apply undeclared_iff in Hxk.
    destruct (Hsym x Hx) as [H|(_ & H & _)]; [contradiction|].
    now apply free_name_spec.
  - intros x Hx. destruct (existsb (String.eqb x) keys) eqn:E.
    + apply declared_iff in E. now apply (separated_key keys x Hsep).
    + apply undeclared_iff in E.
      destruct (Hsym x Hx) as [H|(_ & H & _)]; [contradiction | exact H].
  - reflexivity.
Qed.

Lemma bind_of_shown (lib : library) (keys : list string) (c : component)
  (e : logic_expr) :
  separated keys = true ->
  forallb (admissible keys) (symbols_of e) = true ->
  depth e <= max_nesting ->
  formula c = Ok (show e) ->
  bind_component lib keys c = perform lib keys e.
Proof.
  intros Hsep Hadm Hd Hf. unfold bind_component.
  rewrite Hf. cbn [obind]. rewrite (eval_of_shown lib keys e Hsep Hadm Hd).
  destruct (perform lib keys e); reflexivity.
Qed.





(** A formula written in the form's notation over separated declared names
    and free names is bound by making the calls it writes, from the inside
    out and from the left, on the declared symbols: the outcome of line 75,
    exception or object, is that of those calls. *)
Theorem separated_formula_binds (lib : library) (keys : list string)
  (c : component) (e : logic_expr) :
  separated keys = true ->
  forallb (admissible keys) (symbols_of e) = true ->
  depth e <= max_nesting ->
  formula c = Ok (show e) ->
  bind_component lib keys c = perform lib keys e.
Proof.
  intros Hsep Hadm Hd Hf. rewrite <- (bind_of_shown lib keys c e Hsep Hadm Hd Hf).
  reflexivity.
Qed.

(** At [y2 = Or(y1,w)]: the calls are [Or] on the symbols [y1] and [w], and
    the object that comes back lists [w] first. *)
Lemma separated_formula_binds_witness :
  perform reference_library ["x"; "z"; "y1"; "w"; "y2"] (Or [Symbol "y1"; Symbol "w"])
  = Ok (Or [Symbol "w"; Symbol "y1"])
  /\ bind_component reference_library ["x"; "z"; "y1"; "w"; "y2"] gate_or
     = perform reference_library ["x"; "z"; "y1"; "w"; "y2"]
         (Or [Symbol "y1"; Symbol "w"]).
Proof.
  split; [reflexivity|].
  apply (separated_formula_binds reference_library ["x"; "z"; "y1"; "w"; "y2"] gate_or
           (Or [Symbol "y1"; Symbol "w"])).
  - vm_compute. reflexivity.
  - vm_compute. reflexivity.
  - vm_compute. lia.
  - reflexivity.
Defined.

(** ** Names that nothing binds *)



(** ** The formula of a component and the text of the circuit *)

Lemma split_without (sep : ascii) (s : string) :
  has_char sep s = false -> split sep s = [s].
Proof.
  unfold has_char. induction s as [|c s IH]; intros H; [reflexivity|].
  cbn [string_exists] in H. apply orb_false_iff in H as [Hc H].
  cbn [split]. rewrite Ascii.eqb_sym, Hc, (IH H). reflexivity.
Qed.

Lemma split_at_first (sep : ascii) (s1 s2 : string) :
  has_char sep s1 = false -> split sep (s1 +:+ String sep s2) = s1 :: split sep s2.
Proof.
  unfold has_char. induction s1 as [|c s1 IH]; intros H.
  - change (EmptyString +:+ String sep s2) with (String sep s2).
    cbn [split]. now rewrite Ascii.eqb_refl.
  - cbn [string_exists] in H. apply orb_false_iff in H as [Hc H].
    rewrite append_cons. cbn [split]. rewrite Ascii.eqb_sym, Hc, (IH H). reflexivity.
Qed.

Lemma split_nonempty (sep : ascii) (s : string) : split sep s <> [].
Proof.
  destruct s as [|c s]; [discriminate|]. cbn [split].
  destruct (Ascii.eqb c sep); [discriminate|]. destruct (split sep s); discriminate.
Qed.

(** A text with the separator in it splits into at least two pieces. *)
Lemma split_with (sep : ascii) (s : string) :
  has_char sep s = true -> exists a b rest, split sep s = a :: b :: rest.
Proof.
  unfold has_char. induction s as [|c s IH]; intros H; [discriminate|].
  cbn [string_exists] in H. cbn [split]. rewrite Ascii.eqb_sym in H.
  destruct (Ascii.eqb c sep).
  - destruct (split sep s) as [|b rest] eqn:E; [now apply split_nonempty in E|].
    now exists EmptyString, b, rest.
  - cbn [orb] in H. destruct (IH H) as (a & b & rest & ->).
    now exists (String c a), b, rest.
Qed.

(** Lines 47 and 72: the formula of a component is the text between the first
    and the second [=] of its expression, blanks at both ends removed; what
    stands left of the first [=] and right of the second is not looked at.
    An expression without [=] raises [IndexError]. *)
Theorem formula_between_equals (c : component) :
  (has_char "=" (expr c) = false -> formula c = Raise IndexError)
  /\ (has_char "=" (expr c) = true -> exists r, formula c = Ok r)
  /\ (forall lhs rhs, expr c = lhs +:+ String "=" rhs ->
        has_char "=" lhs = false -> has_char "=" rhs = false ->
        formula c = Ok (strip rhs))
  /\ (forall lhs rhs tail, expr c = lhs +:+ String "=" (rhs +:+ String "=" tail) ->
        has_char "=" lhs = false -> has_char "=" rhs = false ->
        formula c = Ok (strip rhs)).
Proof.
  unfold formula. repeat split.
  - intros H. now rewrite (split_without _ _ H).
  - intros H. destruct (split_with _ _ H) as (a & b & rest & ->). now exists (strip b).
  - intros lhs rhs -> Hl Hr.
    now rewrite (split_at_first _ _ _ Hl), (split_without _ _ Hr).
  - intros lhs rhs tail -> Hl Hr.
    now rewrite (split_at_first _ _ _ Hl), (split_at_first _ _ _ Hr).
Qed.

Lemma formula_between_equals_witness :
  formula {| inputs := ["a"]; output := "Y"; expr := "Z = Not(a) = And(a)"; delay := 0 |}
  = Ok "Not(a)".
Proof.
  destruct (formula_between_equals
              {| inputs := ["a"]; output := "Y"; expr := "Z = Not(a) = And(a)"; delay := 0 |})
    as (_ & _ & _ & H).
  apply (H "Z " " Not(a) " " And(a)"); reflexivity.
Defined.

Lemma formula_outcome (c : component) :
  (has_char "=" (expr c) = false /\ formula c = Raise IndexError)
  \/ (has_char "=" (expr c) = true /\ exists r, formula c = Ok r).
Proof.
  unfold formula. destruct (has_char "=" (expr c)) eqn:H; [right | left]; split; try reflexivity.
  - destruct (split_with _ _ H) as (a & b & rest & ->). now exists (strip b).
  - now rewrite (split_without _ _ H).
Qed.

Lemma top_level_exprs_spec (cs : list component) (acc : list string) :
  (exists rs, Forall2 (fun c r => formula c = Ok r) cs rs
              /\ ofold (fun acc c => let* r := formula c in Ok (acc ++ [r])) cs acc
                 = Ok (acc ++ rs))
  \/ ((exists c, c ∈ cs /\ has_char "=" (expr c) = false)
      /\ ofold (fun acc c => let* r := formula c in Ok (acc ++ [r])) cs acc
         = Raise IndexError).
Proof.
  revert acc. induction cs as [|c cs IH]; intros acc.
  - left. exists []. split; [constructor | now rewrite app_nil_r].
  - cbn [ofold]. destruct (formula_outcome c) as [[Hc ->]|[Hc [r Hr]]].
    + right. split; [|reflexivity]. exists c. split; [apply elem_of_cons; now left | exact Hc].
    + rewrite Hr. cbn [obind]. destruct (IH (acc ++ [r])) as [(rs & HF & ->)|[(c' & Hc' & Hno) ->]].
      * left. exists (r :: rs). split; [now constructor | now rewrite <- app_assoc].
      * right. split; [|reflexivity]. exists c'. split; [apply elem_of_cons; now right | exact Hno].
Qed.

Lemma full_circuit_expr_cases (scs : PyDict.t (PyDict.t component)) :
  (Forall (fun c => has_char "=" (expr c) = true) (all_components scs)
   /\ exists text, full_circuit_expr scs = Ok text)
  \/ ((exists c, c ∈ all_components scs /\ has_char "=" (expr c) = false)
      /\ full_circuit_expr scs = Raise IndexError).
Proof.
  unfold full_circuit_expr.
  destruct (top_level_exprs_spec (all_components scs) []) as [(rs & HF & ->)|[Hex ->]].
  - left. split; [|now eexists].
    clear -HF. induction HF as [|c r cs rs Hc _ IH]; constructor; [|exact IH].
    destruct (formula_outcome c) as [[_ H]|[H _]]; [congruence | exact H].
  - right. split; [exact Hex | reflexivity].
Qed.

(** Lines 44-49: the displayed circuit text is the formulas of the components
    in the order met, joined by [ & ]; the line raises [IndexError], which
    nothing catches, exactly when the expression of some component has no
    [=]. *)
Theorem full_circuit_expr_spec (scs : PyDict.t (PyDict.t component)) :
  (Forall (fun c => has_char "=" (expr c) = true) (all_components scs)
   /\ exists rs, Forall2 (fun c r => formula c = Ok r) (all_components scs) rs
                 /\ full_circuit_expr scs = Ok (join " & " rs))
  \/ ((exists c, c ∈ all_components scs /\ has_char "=" (expr c) = false)
      /\ full_circuit_expr scs = Raise IndexError).
Proof.
  unfold full_circuit_expr.
  destruct (top_level_exprs_spec (all_components scs) []) as [(rs & HF & ->)|[Hex ->]].
  - left. split; [|now exists rs].
    clear -HF. induction HF as [|c r cs rs Hc _ IH]; constructor; [|exact IH].
    destruct (formula_outcome c) as [[_ H]|[H _]]; [congruence | exact H].
  - right. split; [exact Hex | reflexivity].
Qed.

(** ** What a run ends in *)

Lemma evaluate_components_raise (lib : library) (keys : list string) (cs : list component)
  (st : list logic_expr * PyDict.t nat) (e : exn) :
  ofold (evaluate_component lib keys) cs st = Raise e ->
  exists cs1 c cs2,
    cs = cs1 ++ c :: cs2
    /\ Forall (fun c' => is_ok (bind_component lib keys c') = true) cs1
    /\ bind_component lib keys c = Raise e.
Proof.
  revert st. induction cs as [|c cs IH]; intros st H; [discriminate|].
  cbn [ofold] in H. unfold evaluate_component at 1 in H.
  destruct (bind_component lib keys c) as [x|e'|] eqn:Ec; cbn [obind] in H.
  - apply IH in H as (cs1 & c' & cs2 & -> & HF & Hc').
    exists (c :: cs1), c', cs2. split; [reflexivity|]. split; [|exact Hc'].
    constructor; [now rewrite Ec | exact HF].
  - injection H as ->. exists [], c, cs. now repeat split.
  - discriminate.
Qed.

(** Inside the [try] the formula of a component has been taken once already,
    by line 47: what binding raises there comes out of [eval]. *)
Lemma bind_component_raise (lib : library) (keys : list string) (c : component)
  (e : exn) :
  has_char "=" (expr c) = true ->
  bind_component lib keys c = Raise e ->
  exists text,
    formula c = Ok text /\ py_eval lib keys (substitute keys text) = Raise e.
Proof.
  unfold bind_component. intros Hc H.
  destruct (formula_outcome c) as [[Hno _]|[_ [text Hf]]]; [congruence|].
  rewrite Hf in H. cbn [obind] in H. exists text. split; [exact Hf|].
  destruct (py_eval lib keys (substitute keys text)) as [[]|e'|];
    cbn [obind] in H; congruence.
Qed.

Lemma sim_table_of_run (vars : list string) (scs : PyDict.t (PyDict.t component)) :
  Permutation vars (all_vars scs) ->
  sim_table vars (delays_of (all_components scs))
  = Ok (tabulate (fun v => match get (delays_of (all_components scs)) v with
                           | Some d => delayed_row d
                           | None => repeat 0 t_steps
                           end) vars).
Proof.
  intros Hperm. apply sim_table_spec.
  - rewrite Hperm. apply NoDup_all_vars.
  - apply NoDup_keys_of_entries.
  - intros k Hk. apply delays_of_keys in Hk.
    apply list_elem_of_fmap in Hk as (c & -> & Hc).
    rewrite Hperm. now apply output_in_all_vars.
Qed.

(** A run stops at line 47 with an uncaught [IndexError] exactly when the
    expression of some component has no [=]; of the runs the model decides no
    other one ends in an exception that escapes. *)
Theorem run_crashes_without_equals (str_compound : logic_expr -> string)
  (lib : library) (vars : list string) (scs : PyDict.t (PyDict.t component))
  (e : exn) :
  run str_compound lib vars scs = Crashed e <->
  e = IndexError /\ exists c, c ∈ all_components scs /\ has_char "=" (expr c) = false.
Proof.
  unfold run.
  destruct (full_circuit_expr_cases scs) as [(Hall & text & ->)|[Hex ->]].
  - split.
    + destruct (analyse str_compound lib vars scs); discriminate.
    + intros (_ & c & Hc & Hno). rewrite Forall_forall in Hall.
      specialize (Hall c Hc). congruence.
  - split; [intros [= <-]; now split | intros [-> _]; reflexivity].
Qed.

(** An error message shown by the [except] branch comes out of a call into
    code that is not the script's: out of [symbols], on names that are not all
    plain; out of [eval] on the text of the first component, in the order met,
    that does not bind; or, when every component has bound, out of [And],
    of the calls of lines 80-88, of the display of the table or of the
    rendering of the proof graph.  The statements of the script itself inside
    the [try] (the taking of the formula, which line 47 has done before, the
    simulation loop, the builder) raise nothing. *)
Theorem reported_error_comes_from_a_call (str_compound : logic_expr -> string)
  (lib : library) (vars : list string) (scs : PyDict.t (PyDict.t component))
  (e : exn) :
  Permutation vars (all_vars scs) ->
  run str_compound lib vars scs = Reported e ->
  (forallb plain_name vars = false /\ sympy_symbols lib vars = Raise e)
  \/ (exists cs1 c cs2 text,
        all_components scs = cs1 ++ c :: cs2
        /\ Forall (fun c' => is_ok (bind_component lib vars c') = true) cs1
        /\ formula c = Ok text
        /\ py_eval lib vars (substitute vars text) = Raise e)
  \/ (exists es,
        Forall2 (fun c o => bind_component lib vars c = Ok o) (all_components scs) es
        /\ (sympy_And lib es = Raise e
            \/ exists logic tbl,
                 sympy_And lib es = Ok logic
                 /\ sim_table vars (delays_of (all_components scs)) = Ok tbl
                 /\ (inspect lib logic = Raise e
                     \/ show_table lib tbl = Raise e
                     \/ render lib (dot (proof_tree str_compound logic)) = Raise e))).
Proof.
  intros Hperm. unfold run.
  destruct (full_circuit_expr_cases scs) as [(Hall & text & ->)|[_ ->]]; [|discriminate].
  destruct (analyse str_compound lib vars scs) as [a|e'|] eqn:Ea; try discriminate.
  intros [= ->]. unfold analyse, var_map_keys, compose in Ea.
  destruct (forallb plain_name vars).
  2:{ left. split; [reflexivity|].
      destruct (sympy_symbols lib vars); cbn [obind] in Ea; congruence. }
  right. cbn [obind] in Ea.
  destruct (evaluate_subcircuits lib vars scs) as [[es ti]|e'|] eqn:Ev; cbn [obind] in Ea.
  - right. apply evaluate_subcircuits_inv in Ev as [HF ->]. cbn [fst snd] in Ea.
    exists es. split; [exact HF|].
    destruct (sympy_And lib es) as [logic|e'|]; cbn [obind] in Ea;
      [|injection Ea as ->; now left|discriminate].
    right. rewrite (sim_table_of_run vars scs Hperm) in Ea |- *.
    eexists logic, _. split; [reflexivity|]. split; [reflexivity|].
    destruct (inspect lib logic) as [u|e'|]; cbn [obind] in Ea;
      [|injection Ea as ->; now left|discriminate].
    match type of Ea with
    | obind (show_table lib ?t) _ = _ => destruct (show_table lib t) as [u'|e'|]
    end; cbn [obind] in Ea; [|injection Ea as ->; right; now left|discriminate].
    destruct (render lib _) as [u''|e'|]; cbn [obind] in Ea;
      [discriminate|injection Ea as ->; right; now right|discriminate].
  - left. injection Ea as ->. unfold evaluate_subcircuits in Ev.
    rewrite ofold_flat_map in Ev.
    apply evaluate_components_raise in Ev as (cs1 & c & cs2 & Hcs & HF & Hc).
    assert (Heq : has_char "=" (expr c) = true).
    { rewrite Forall_forall in Hall. apply Hall. unfold all_components. rewrite Hcs.
      apply elem_of_app. right. apply elem_of_cons. now left. }
    apply (bind_component_raise lib vars c e Heq) in Hc as (text' & Hf & Hev).
    now exists cs1, c, cs2, text'.
  - discriminate.
Qed.

(** At the form's default entries the message is the [SyntaxError] of [eval]
    on the text of the one component. *)
Lemma reported_error_comes_from_a_call_witness :
  exists cs1 c cs2 text,
    all_components (subcircuits default_form) = cs1 ++ c :: cs2
    /\ Forall (fun c' => is_ok (bind_component reference_library ["A"; "B"; "Y11"] c')
                         = true) cs1
    /\ formula c = Ok text
    /\ py_eval reference_library ["A"; "B"; "Y11"] (substitute ["A"; "B"; "Y11"] text)
       = Raise SyntaxError.
Proof.
  destruct (reported_error_comes_from_a_call infix_str reference_library
              ["A"; "B"; "Y11"] (subcircuits default_form) SyntaxError)
    as [[Hplain _]|[H|(es & HF & _)]].
  - vm_compute. apply Permutation_refl.
  - vm_compute. reflexivity.
  - vm_compute in Hplain. discriminate.
  - exact H.
  - change (all_components (subcircuits default_form)) with [default_component] in HF.
    inversion HF as [|c o cs os Hc _]. subst. vm_compute in Hc. discriminate.
Defined.

(** ** Circuits that are analysed *)

Lemma evaluate_components_perform (lib : library) (keys : list string)
  (cs : list component) (es : list logic_expr) :
  Forall2 (fun c e => bind_component lib keys c = perform lib keys e) cs es ->
  forall es0 cs0,
    ofold (evaluate_component lib keys) cs (es0, delays_of cs0)
    = let* os := perform_all lib keys es in Ok (es0 ++ os, delays_of (cs0 ++ cs)).
Proof.
  induction 1 as [|c e cs es Hc _ IH]; intros es0 cs0.
  - cbn [ofold perform_all obind]. now rewrite !app_nil_r.
  - cbn [ofold perform_all]. unfold evaluate_component at 1. rewrite Hc.
    destruct (perform lib keys e) as [o| |]; [|reflexivity|reflexivity].
    cbn [obind fst snd]. rewrite <- delays_of_snoc, IH.
    destruct (perform_all lib keys es) as [os| |]; [|reflexivity|reflexivity].
    cbn [obind]. now rewrite <- !app_assoc.
Qed.

Lemma evaluate_subcircuits_perform (lib : library) (keys : list string)
  (scs : PyDict.t (PyDict.t component)) (es : list logic_expr) :
  Forall2 (fun c e => bind_component lib keys c = perform lib keys e)
          (all_components scs) es ->
  evaluate_subcircuits lib keys scs
  = let* os := perform_all lib keys es in Ok (os, delays_of (all_components scs)).
Proof.
  intros HF. unfold evaluate_subcircuits. rewrite ofold_flat_map.
  apply (evaluate_components_perform lib keys _ es HF [] []).
Qed.

(** When the names of the circuit are separated and every component's formula
    is written in the form's notation over them and over free names, the
    body of the [try] does this and nothing else, whatever the order in which
    the names are enumerated: it makes the calls each formula writes, the
    components taken in the order met; calls [And] on the objects that came
    back; hands the result to the calls of lines 80-88; displays the table of
    the delays; and renders the proof graph of the result.  The first of these
    calls that does not return decides how the run ends. *)
Theorem separated_circuit_is_analysed (str_compound : logic_expr -> string)
  (lib : library) (vars : list string) (scs : PyDict.t (PyDict.t component))
  (es : list logic_expr) :
  Permutation vars (all_vars scs) ->
  separated vars = true ->
  Forall2 (fun c e => formula c = Ok (show e)
                      /\ forallb (admissible vars) (symbols_of e) = true
                      /\ depth e <= max_nesting)
          (all_components scs) es ->
  analyse str_compound lib vars scs
  = (let* os := perform_all lib vars es in
     let* logic := sympy_And lib os in
     let* _ := inspect lib logic in
     let tbl := tabulate (fun v => match get (delays_of (all_components scs)) v with
                                   | Some d => delayed_row d
                                   | None => repeat 0 t_steps
                                   end) vars in
     let* _ := show_table lib tbl in
     let* _ := render lib (dot (proof_tree str_compound logic)) in
     Ok {| circuit_logic := logic; temporal_table := tbl;
           proof := proof_tree str_compound logic |}).
Proof.
  intros Hperm Hsep HF.
  assert (Hbind : Forall2 (fun c e => bind_component lib vars c = perform lib vars e)
                          (all_components scs) es).
  { eapply Forall2_impl; [exact HF|]. intros c e (Hf & Hadm & Hd).
    now apply bind_of_shown. }
  unfold analyse, var_map_keys, compose.
  assert (Hplain : forallb plain_name vars = true).
  { apply forallb_forall. intros x Hx. apply list_elem_of_In in Hx.
    now apply (separated_key vars x Hsep). }
  rewrite Hplain. cbn [obind]. rewrite (evaluate_subcircuits_perform lib vars scs es Hbind).
  destruct (perform_all lib vars es) as [os| |]; [|reflexivity|reflexivity].
  cbn [obind fst snd app].
  destruct (sympy_And lib os) as [logic| |]; [|reflexivity|reflexivity].
  cbn [obind]. destruct (inspect lib logic); [|reflexivity|reflexivity].
  cbn [obind]. now rewrite (sim_table_of_run vars scs Hperm).
Qed.

(** At the two components that pass [z] and [x] on. *)
Lemma separated_circuit_is_analysed_witness :
  analyse infix_str reference_library ["z"; "y1"; "x"; "y2"] (subcircuits two_wires)
  = Ok {| circuit_logic := And [Symbol "x"; Symbol "z"];
          temporal_table :=
            [("z", [0; 0; 0]); ("y1", [1; 1; 1]); ("x", [0; 0; 0]); ("y2", [0; 1; 1])];
          proof := proof_tree infix_str (And [Symbol "x"; Symbol "z"]) |}.
Proof.
  rewrite (separated_circuit_is_analysed infix_str reference_library
             ["z"; "y1"; "x"; "y2"] (subcircuits two_wires) [Symbol "z"; Symbol "x"]).
  - reflexivity.
  - vm_compute. apply Permutation_refl.
  - vm_compute. reflexivity.
  - change (all_components (subcircuits two_wires)) with [wire_z; wire_x].
    constructor; [|constructor; [|constructor]].
    + split; [reflexivity|]. split; [reflexivity | vm_compute; lia].
    + split; [reflexivity|]. split; [reflexivity | vm_compute; lia].
Defined.

(** ** The shape of the proof graph *)

Lemma size_positive (e : logic_expr) : 1 <= size e.
Proof. destruct e; simpl; lia. Qed.

Lemma children_edges_targets (args : list logic_expr) (p next : nat) :
  Forall (fun a => forall c, map snd (subtree_edges c a) = seq (S c) (size a - 1)) args ->
  map snd (children_edges subtree_edges p next args)
  = seq next (list_sum (map size args)).
Proof.
  intros HF. revert next. induction HF as [|a args Ha _ IH]; intros next; [reflexivity|].
  change (list_sum (map size (a :: args))) with (size a + list_sum (map size args)).
  cbn [children_edges map snd]. rewrite map_app, Ha, IH.
  pose proof (size_positive a) as Hs.
  destruct (size a) as [|n]; [lia|].
  replace (S n - 1) with n by lia. replace (next + S n) with (S next + n) by lia.
  cbn [seq Nat.add]. f_equal. now rewrite seq_app.
Qed.

(** Every position after the root is the target of exactly one edge. *)
Lemma subtree_edges_targets (e : logic_expr) :
  forall c, map snd (subtree_edges c e) = seq (S c) (size e - 1).
Proof.
  induction e as [name|args IH|args IH|arg IH] using logic_expr_induction; intros c.
  - reflexivity.
  - cbn [subtree_edges size]. rewrite (children_edges_targets _ _ _ IH). f_equal. lia.
  - cbn [subtree_edges size]. rewrite (children_edges_targets _ _ _ IH). f_equal. lia.
  - cbn [subtree_edges size map snd]. rewrite IH.
    pose proof (size_positive arg) as Hs.
    replace (S (size arg) - 1) with (S (size arg - 1)) by lia. reflexivity.
Qed.

Lemma children_edges_forward (args : list logic_expr) (p next : nat) (pq : nat * nat) :
  Forall (fun a => forall c pq, pq ∈ subtree_edges c a -> c <= fst pq < snd pq) args ->
  p < next ->
  pq ∈ children_edges subtree_edges p next args -> p <= fst pq < snd pq.
Proof.
  intros HF. revert next. induction HF as [|a args Ha _ IH]; intros next Hlt Hin;
    cbn [children_edges] in Hin.
  - now apply elem_of_nil in Hin.
  - apply elem_of_cons in Hin as [->|Hin]; [cbn; lia|].
    apply elem_of_app in Hin as [Hin|Hin].
    + apply Ha in Hin. lia.
    + apply IH in Hin; lia.
Qed.

(** An edge leads from a position to a later one. *)
Lemma subtree_edges_forward (e : logic_expr) :
  forall c pq, pq ∈ subtree_edges c e -> c <= fst pq < snd pq.
Proof.
  induction e as [name|args IH|args IH|arg IH] using logic_expr_induction;
    intros c pq Hin; cbn [subtree_edges] in Hin.
  - now apply elem_of_nil in Hin.
  - apply (children_edges_forward _ _ _ _ IH) in Hin; lia.
  - apply (children_edges_forward _ _ _ _ IH) in Hin; lia.
  - apply elem_of_cons in Hin as [->|Hin]; [cbn; lia|]. apply IH in Hin. lia.
Qed.

Lemma node_id_inj (p q : nat) : node_id p = node_id q -> p = q.
Proof.
  intros H. apply (f_equal (fun s => String.eqb s (node_id q))) in H.
  rewrite node_id_eqb, String.eqb_refl in H. now apply Nat.eqb_eq.
Qed.

(** The graph a call of the builder returns is a tree drawn in the order of
    the walk: the node ids are pairwise different, every node but the first is
    the target of exactly one edge (the targets of the edges, in order, are
    the ids of the nodes after the first), and every edge leads from a node to
    one made later, so no path returns to where it started. *)
Theorem proof_graph_is_a_tree (str_compound : logic_expr -> string) (cell : nat)
  (explanations : PyDict.t string) (e : logic_expr) :
  NoDup (map node_name (nodes (dot (call_builder str_compound cell explanations e))))
  /\ map snd (edges (dot (call_builder str_compound cell explanations e)))
     = tail (map node_name (nodes (dot (call_builder str_compound cell explanations e))))
  /\ length (edges (dot (call_builder str_compound cell explanations e)))
     = length (nodes (dot (call_builder str_compound cell explanations e))) - 1
  /\ Forall (fun st => exists p q, st = (node_id p, node_id q) /\ cell <= p < q)
            (edges (dot (call_builder str_compound cell explanations e))).
Proof.
  rewrite call_builder_spec. cbn [dot nodes edges].
  rewrite node_names, length_preorder.
  assert (Htargets : map snd (map named_edge (subtree_edges cell e))
                     = map node_id (seq (S cell) (size e - 1))).
  { rewrite map_map.
    change (fun x => snd (named_edge x)) with (fun x : nat * nat => node_id (snd x)).
    rewrite <- (map_map snd node_id), subtree_edges_targets. reflexivity. }
  split; [|split; [|split]].
  - apply NoDup_fmap_2; [intros p q; apply node_id_inj | apply NoDup_seq].
  - rewrite Htargets. pose proof (size_positive e) as Hs.
    destruct (size e) as [|n]; [lia|]. replace (S n - 1) with n by lia. reflexivity.
  - rewrite !length_map.
    rewrite <- (length_map snd (subtree_edges cell e)), subtree_edges_targets, length_seq.
    rewrite <- (length_map fst (number_from cell (preorder e))), map_fst_number_from,
      length_seq, length_preorder.
    reflexivity.
  - apply Forall_forall. intros st Hst. apply list_elem_of_fmap in Hst as ([p q] & -> & Hpq).
    exists p, q. split; [reflexivity|]. apply subtree_edges_forward in Hpq. exact Hpq.
Qed.

(** ** The dictionary of explanations *)

Lemma explain_fresh (str_compound : logic_expr -> string) (l : list (nat * logic_expr))
  (ex : PyDict.t string) :
  NoDup (map fst l) ->
  (forall i, i ∈ map fst l -> node_id i ∉ PyDict.keys ex) ->
  fold_left (explain str_compound) l ex
  = ex ++ map (fun ie => (node_id (fst ie), describe_expr str_compound (snd ie))) l.
Proof.
  revert ex. induction l as [|[i x] l IH]; intros ex Hnd Hfresh.
  - now rewrite app_nil_r.
  - cbn [map fst] in Hnd. apply NoDup_cons in Hnd as [Hi Hnd].
    cbn [fold_left]. unfold explain at 2. cbn [fst snd].
    rewrite set_absent by (apply Hfresh; apply elem_of_cons; now left).
    rewrite IH; [now rewrite <- app_assoc | exact Hnd |].
    intros j Hj. unfold PyDict.keys. rewrite fmap_app, elem_of_app.
    intros [H|H].
    + revert H. apply Hfresh. apply elem_of_cons. now right.
    + cbn in H. apply list_elem_of_singleton in H. apply node_id_inj in H.
      subst j. contradiction.
Qed.

(** A call adds to [node_explanations] one entry per node it makes, the id
    with the tooltip of the node, in the order of the nodes, and leaves the
    entries that were there untouched, provided none of them is under an id the
    call hands out. *)
Theorem explanations_follow_nodes (str_compound : logic_expr -> string) (cell : nat)
  (explanations : PyDict.t string) (e : logic_expr) :
  (forall i, cell <= i < cell + size e -> node_id i ∉ PyDict.keys explanations) ->
  node_explanations (call_builder str_compound cell explanations e)
  = explanations
    ++ map (fun n => (node_name n, tooltip n))
           (nodes (dot (call_builder str_compound cell explanations e))).
Proof.
  intros Hfresh. rewrite call_builder_spec. cbn [dot nodes node_explanations].
  rewrite explain_fresh.
  - rewrite map_map. reflexivity.
  - rewrite map_fst_number_from. apply NoDup_seq.
  - intros i Hi. rewrite map_fst_number_from, length_preorder in Hi.
    apply list_elem_of_In, in_seq in Hi. apply Hfresh. lia.
Qed.

(** A second call through the shared counter, which stands at 2, with the
    entries of the first call still in the dictionary: they stay as they are
    and the two new ones follow. *)
Lemma explanations_follow_nodes_witness :
  node_explanations
    (call_builder infix_str 2
       [("n0", "NOT of: y"); ("n1", "Primitive output: y")] (Not (Symbol "x")))
  = [("n0", "NOT of: y"); ("n1", "Primitive output: y")]
    ++ map (fun n => (node_name n, tooltip n))
           (nodes (dot (call_builder infix_str 2
                          [("n0", "NOT of: y"); ("n1", "Primitive output: y")]
                          (Not (Symbol "x")))))
  /\ node_explanations
       (call_builder infix_str 2
          [("n0", "NOT of: y"); ("n1", "Primitive output: y")] (Not (Symbol "x")))
     = [("n0", "NOT of: y"); ("n1", "Primitive output: y");
        ("n2", "NOT of: x"); ("n3", "Primitive output: x")].
Proof.
  split; [|reflexivity].
  apply (explanations_follow_nodes infix_str 2
           [("n0", "NOT of: y"); ("n1", "Primitive output: y")] (Not (Symbol "x"))).
  intros i Hi. cbn [size] in Hi.
  assert (Hcases : i = 2 \/ i = 3) by lia.
  destruct Hcases as [-> | ->]; intros H; apply list_elem_of_In in H;
    vm_compute in H; destruct H as [H|[H|[]]]; discriminate.
Defined.

(** ** The variable universe, exactly *)

(** [all_vars] holds each input and each output of each component once, and
    nothing else. *)
Theorem all_vars_exact (scs : PyDict.t (PyDict.t component)) :
  NoDup (all_vars scs)
  /\ forall v, v ∈ all_vars scs <->
               exists c, c ∈ all_components scs /\ (v = output c \/ v ∈ inputs c).
Proof.
  split; [apply NoDup_all_vars|]. intros v.
  rewrite all_vars_flat, elem_fold_component_vars. split.
  - intros [H|H]; [now apply elem_of_nil in H | exact H].
  - intros H. now right.
Qed.

(** ** Rows that are missing, and what the table does not depend on *)

Lemma keys_tabulate (rows : string -> list nat) (vars : list string) :
  PyDict.keys (tabulate rows vars) = vars.
Proof. unfold PyDict.keys, tabulate. rewrite map_map. apply map_id. Qed.

(** The simulator looks a row up only when it has a step to set: for a name
    that is not among the variables it raises [KeyError] when the delay is
    below [t_steps] and passes over the entry otherwise. *)
Theorem missing_row (vars : list string) (ti1 ti2 : PyDict.t nat) (k : string) (d : nat) :
  NoDup vars ->
  Forall (fun item => fst item ∈ vars) ti1 ->
  k ∉ vars ->
  (d < t_steps -> sim_table vars (ti1 ++ (k, d) :: ti2) = Raise (KeyError k))
  /\ (t_steps <= d -> sim_table vars (ti1 ++ (k, d) :: ti2) = sim_table vars (ti1 ++ ti2)).
Proof.
  intros Hnd Hin Hk. unfold sim_table, initial_table.
  rewrite of_entries_NoDup by (rewrite map_map; simpl; now rewrite map_id).
  change (map (fun var => (var, repeat 0 t_steps)) vars)
    with (tabulate (fun _ => repeat 0 t_steps) vars).
  rewrite !ofold_app, sim_loop by (assumption || reflexivity).
  cbn [obind ofold fst snd]. split; intros Hd.
  - unfold py_range. destruct (t_steps - d) as [|n] eqn:E; [lia|].
    cbn [seq ofold]. unfold mark at 1.
    replace (get (tabulate _ vars) k) with (@None (list nat)); [reflexivity|].
    symmetry. apply get_None. now rewrite keys_tabulate.
  - unfold py_range. replace (t_steps - d) with 0 by lia. reflexivity.
Qed.

Lemma missing_row_witness :
  sim_table ["x"] ([("x", 0)] ++ [("q", 1)]) = Raise (KeyError "q").
Proof.
  apply (missing_row ["x"] [("x", 0)] [] "q" 1).
  - apply NoDup_singleton.
  - repeat constructor.
  - intros H. apply list_elem_of_singleton in H. discriminate.
  - unfold t_steps. lia.
Defined.

(** The table depends on the outputs and delays of the components and on the
    set of variables only: circuits that agree on them have the same table,
    whatever their formulas are. *)
Theorem temporal_table_ignores_logic (lib1 lib2 : library)
  (str1 str2 : logic_expr -> string)
  (vars : list string) (scs1 scs2 : PyDict.t (PyDict.t component)) (a1 a2 : analysis) :
  analyse str1 lib1 vars scs1 = Ok a1 ->
  analyse str2 lib2 vars scs2 = Ok a2 ->
  map (fun c => (output c, delay c)) (all_components scs1)
  = map (fun c => (output c, delay c)) (all_components scs2) ->
  temporal_table a1 = temporal_table a2.
Proof.
  intros H1 H2 Heq.
  apply analyse_inv in H1 as (es1 & ti1 & logic1 & tbl1 & Hev1 & _ & Ht1 & ->).
  apply analyse_inv in H2 as (es2 & ti2 & logic2 & tbl2 & Hev2 & _ & Ht2 & ->).
  apply evaluate_subcircuits_inv in Hev1 as [_ ->].
  apply evaluate_subcircuits_inv in Hev2 as [_ ->].
  unfold delays_of in Ht1, Ht2. rewrite Heq in Ht1. cbn [temporal_table]. congruence.
Qed.

Lemma temporal_table_ignores_logic_witness :
  exists a1 a2,
    analyse infix_str reference_library ["x"; "y"]
      (subcircuits [("SC1", [("C11", driver_fast)])]) = Ok a1
    /\ analyse infix_str reference_library ["x"; "y"]
         (subcircuits [("SC1", [("C11",
            {| inputs := ["x"]; output := "y"; expr := "y = And(x)"; delay := 0 |})])])
       = Ok a2
    /\ circuit_logic a1 <> circuit_logic a2
    /\ temporal_table a1 = temporal_table a2.
Proof.
  eexists. eexists. split; [reflexivity|]. split; [reflexivity|]. split; [discriminate|].
  apply (temporal_table_ignores_logic reference_library reference_library
           infix_str infix_str ["x"; "y"]
           (subcircuits [("SC1", [("C11", driver_fast)])])
           (subcircuits [("SC1", [("C11",
              {| inputs := ["x"]; output := "y"; expr := "y = And(x)"; delay := 0 |})])]));
    reflexivity.
Defined.

(** ** The circuit diagram *)

Lemma fold_left_snoc_map {A B : Type} (g : A -> B) (l : list A) (b : list B) :
  fold_left (fun b x => b ++ [g x]) l b = b ++ map g l.
Proof.
  revert b. induction l as [|x l IH]; intros b; cbn [fold_left map].
  - now rewrite app_nil_r.
  - rewrite IH, <- app_assoc. reflexivity.
Qed.

Lemma draw_component_spec (body : list statement) (comp : component) :
  draw_component body comp = body ++ component_statements comp.
Proof.
  unfold draw_component, component_statements.
  rewrite fold_left_snoc_map, <- app_assoc. reflexivity.
Qed.

Lemma draw_components_spec (cs : list component) (body : list statement) :
  fold_left draw_component cs body = body ++ flat_map component_statements cs.
Proof.
  revert body. induction cs as [|c cs IH]; intros body; cbn [fold_left flat_map].
  - now rewrite app_nil_r.
  - rewrite IH, draw_component_spec, <- app_assoc. reflexivity.
Qed.

Lemma circuit_diagram_spec (scs : PyDict.t (PyDict.t component)) :
  circuit_diagram scs = flat_map component_statements (all_components scs).
Proof.
  unfold circuit_diagram. rewrite fold_left_flat_map. fold (all_components scs).
  apply draw_components_spec.
Qed.

Lemma snoc_split {A : Type} (body b1 b2 : list A) (s x : A) :
  body ++ [s] = b1 ++ x :: b2 ->
  (b2 = [] /\ s = x /\ body = b1)
  \/ exists b2', b2 = b2' ++ [s] /\ body = b1 ++ x :: b2'.
Proof.
  destruct b2 as [|y b2] using rev_ind; intros H.
  - left. apply app_inj_tail in H as [-> ->]. now repeat split.
  - right. clear IHb2. exists b2.
    replace (b1 ++ x :: b2 ++ [y]) with ((b1 ++ x :: b2) ++ [y]) in H
      by now rewrite <- app_assoc.
    apply app_inj_tail in H as [-> ->]. now split.
Qed.

Lemma heads_declared_node (body : list statement) (n l : string) :
  heads_declared body -> heads_declared (body ++ [NodeStmt n l]).
Proof.
  intros H b1 i o b2 Heq.
  apply snoc_split in Heq as [(_ & Hs & _)|(b2' & _ & Hb)]; [discriminate|].
  now apply (H b1 i o b2').
Qed.

Lemma heads_declared_edge (body : list statement) (inp o l : string) :
  heads_declared body -> NodeStmt o l ∈ body ->
  heads_declared (body ++ [EdgeStmt inp o]).
Proof.
  intros H Hn b1 i o' b2 Heq.
  apply snoc_split in Heq as [(_ & Hs & ->)|(b2' & _ & Hb)].
  - injection Hs as <- <-. now exists l.
  - now apply (H b1 i o' b2').
Qed.

Lemma heads_declared_component (body : list statement) (comp : component) :
  heads_declared body -> heads_declared (draw_component body comp).
Proof.
  intros H. unfold draw_component.
  assert (Hstart : heads_declared (body ++ [NodeStmt (output comp) (delay_label comp)])
                   /\ NodeStmt (output comp) (delay_label comp)
                      ∈ body ++ [NodeStmt (output comp) (delay_label comp)]).
  { split; [now apply heads_declared_node|].
    apply elem_of_app. right. apply list_elem_of_singleton. reflexivity. }
  revert Hstart. generalize (body ++ [NodeStmt (output comp) (delay_label comp)]).
  induction (inputs comp) as [|inp l IH]; intros b [Hb Hn]; cbn [fold_left]; [exact Hb|].
  apply IH. split.
  - now apply (heads_declared_edge b inp (output comp) (delay_label comp)).
  - apply elem_of_app. now left.
Qed.

(** The diagram has a node statement for exactly the outputs of the
    components, labelled with the output's name and the delay; an edge
    statement for exactly each input of each component, leading to that
    component's output; and every edge comes after a node statement for the
    output it leads to.  A variable that is only an input gets no statement
    of its own. *)
Theorem diagram_statements (scs : PyDict.t (PyDict.t component)) :
  (forall n l, NodeStmt n l ∈ circuit_diagram scs <->
               exists c, c ∈ all_components scs /\ n = output c /\ l = delay_label c)
  /\ (forall i o, EdgeStmt i o ∈ circuit_diagram scs <->
                  exists c, c ∈ all_components scs /\ o = output c /\ i ∈ inputs c)
  /\ heads_declared (circuit_diagram scs).
Proof.
  split; [|split].
  - intros n l. rewrite circuit_diagram_spec. split.
    + intros H. apply list_elem_of_In, in_flat_map in H as (c & Hc & H).
      exists c. split; [now apply list_elem_of_In|].
      unfold component_statements in H. destruct H as [[= <- <-]|H]; [now split|].
      apply in_map_iff in H as (x & Hx & _). discriminate.
    + intros (c & Hc & -> & ->). apply list_elem_of_In, in_flat_map.
      exists c. split; [now apply list_elem_of_In | now left].
  - intros i o. rewrite circuit_diagram_spec. split.
    + intros H. apply list_elem_of_In, in_flat_map in H as (c & Hc & H).
      exists c. split; [now apply list_elem_of_In|].
      unfold component_statements in H. destruct H as [H|H]; [discriminate|].
      apply in_map_iff in H as (x & [= <- <-] & Hx). split; [reflexivity|].
      now apply list_elem_of_In.
    + intros (c & Hc & -> & Hi). apply list_elem_of_In, in_flat_map.
      exists c. split; [now apply list_elem_of_In|]. right.
      apply in_map_iff. exists i. split; [reflexivity | now apply list_elem_of_In].
  - unfold circuit_diagram. rewrite fold_left_flat_map.
    assert (H0 : heads_declared []).
    { intros b1 i o b2 H. destruct b1; discriminate. }
    revert H0. generalize (@nil statement).
    induction (flat_map PyDict.values (PyDict.values scs)) as [|c cs IH];
      intros b Hb; cbn [fold_left]; [exact Hb|].
    apply IH. now apply heads_declared_component.
Qed.

(** ** Worked examples *)

Example split_formula : split "=" "Y1 = And(a,b)" = ["Y1 "; " And(a,b)"].
Proof. reflexivity. Qed.

Example strip_formula : strip "  And(a, b) " = "And(a, b)".
Proof. reflexivity. Qed.

(** A no-break space (U+00A0) before and an em space (U+2003) after. *)
Example strip_unicode :
  strip (bytes [194; 160] +:+ "Not(x)" +:+ bytes [226; 128; 131]) = "Not(x)".
Proof. reflexivity. Qed.

Example replace_not_overlapping : replace "aa" "b" "aaaaa" = "bba".
Proof. reflexivity. Qed.

(** The replacement does not stop at the borders of a name. *)
Example replace_inside_operator :
  replace "A" (var_ref "A") "And(A,B)" = "var_map['A']nd(var_map['A'],B)".
Proof. reflexivity. Qed.

Example eval_nested :
  py_eval reference_library ["x"; "z"] (substitute ["x"; "z"] "Not(Not(Or(z, x)))")
  = Ok (VExpr (Or [Symbol "x"; Symbol "z"])).
Proof. reflexivity. Qed.

(** A lower-case name that nothing binds. *)
Example eval_unbound_lower :
  py_eval reference_library ["x"] (substitute ["x"] "Not(d)") = Raise (NameError "d").
Proof. reflexivity. Qed.

(** With an empty inputs field the set of names holds the empty text; when
    [symbols] raises on it, the run shows that error. *)
Example run_reports_symbols_error :
  run infix_str
      {| sympy_And := sympy_And reference_library;
         sympy_Or := sympy_Or reference_library;
         sympy_Not := sympy_Not reference_library;
         sympy_symbols := fun _ => Raise (LibraryError "ValueError");
         inspect := inspect reference_library;
         show_table := show_table reference_library;
         render := render reference_library |}
      [""; "y"]
      (subcircuits [("SC1", [("C11", {| inputs := [""]; output := "y";
                                        expr := "y = Not(y)"; delay := 0 |})])])
  = Reported (LibraryError "ValueError").
Proof. reflexivity. Qed.

Example eval_missing_key : py_eval reference_library ["x"] "var_map['q']" = Raise (KeyError "q").
Proof. reflexivity. Qed.

Example eval_operator_text :
  py_eval reference_library ["x"] "Not(var_map['x'] & var_map['x'])" = Unmodelled.
Proof. reflexivity. Qed.

(** The inverter with delay 2: the output rises at the last step. *)
Example inverter_table :
  option_map temporal_table
    (match analyse infix_str reference_library ["A"; "Y1"] (subcircuits one_inverter) with
     | Ok r => Some r
     | _ => None
     end)
  = Some [("A", [0; 0; 0]); ("Y1", [0; 0; 1])].
Proof. reflexivity. Qed.

Example two_gates_tree_edges :
  edges (dot (proof_tree infix_str
                (And [Symbol "x"; Symbol "z"; Or [Symbol "w"; Symbol "y1"]])))
  = [("n0", "n1"); ("n0", "n2"); ("n0", "n3"); ("n3", "n4"); ("n3", "n5")].
Proof. reflexivity. Qed.
